(** * bitdata: bit-level packing and unpacking of values in byte slices

    A shallow embedding of [bitdata.go] (package [bitdata]) and the
    properties of its write/read engine.

    Conventions of the embedding:
    - Go's fixed-width integers are integers of [Z] with the wrap-around
      written out: [byte], [uint] (64 bits, as on amd64/arm64), [int8], and
      the type parameter [T] of the generic functions, which the exported
      methods instantiate with [uint8], [uint16], [uint32] and [uint64];
    - [BitData] ([[]byte]) is a [list Z];
    - the [*Writer] and [*Reader] receivers are threaded explicitly;
    - a run-time panic (index out of range) is [None];
    - Go's [(value, error)] results are a value and an [option error]. *)

From Stdlib Require Import ZArith List Lia Bool.
From stdpp Require Import base list.
From Equations Require Import Equations.
Import ListNotations.

Local Open Scope Z_scope.

(** ** Machine integers *)

(** The unsigned integer types the exported methods instantiate [T] with. *)
Inductive width := U8 | U16 | U32 | U64.

Definition bits (T : width) : Z :=
  match T with U8 => 8 | U16 => 16 | U32 => 32 | U64 => 64 end.

(** Conversion to [T]: truncation to the width of [T]. *)
Definition conv (T : width) (x : Z) : Z := x mod 2 ^ bits T.

Definition byte (x : Z) : Z := x mod 2 ^ 8.
Definition uint (x : Z) : Z := x mod 2 ^ 64.
Definition int8 (x : Z) : Z := (x + 128) mod 256 - 128.

(** [x << n] in type [T]; a count of at least the width gives 0. *)
Definition shl (T : width) (x n : Z) : Z := conv T (Z.shiftl x n).

(** ** The source *)

(** [type BitData []byte] *)
Abbreviation BitData := (list Z).

Record Writer := mkWriter { w_data : BitData; bitsWritten : Z }.

Record Reader := mkReader { r_data : BitData; bitsRead : Z }.

Inductive error := ErrBitCountTooBig | ErrUnexpectedEOF.

Record ReaderError := mkReaderError { reader : Reader; err : option error }.

(** [func mask[T integer](n byte) T { return T(1)<<n - 1 }] *)
Definition mask (T : width) (n : Z) : Z := conv T (shl T 1 n - 1).

(** The loop of [write]:
    [for bitsRemain > 0 { data = append(data, byte(value));
                          value >>= 8; bitsRemain -= 8 }] *)
Equations write_loop (data : BitData) (value : Z) (bitsRemain : Z) : BitData
  by wf (Z.to_nat bitsRemain) lt :=
write_loop data value bitsRemain with Z_gt_dec bitsRemain 0 := {
  | left _ => write_loop (data ++ [byte value]) (Z.shiftr value 8)
                         (int8 (bitsRemain - 8));
  | right _ => data }.
Next Obligation.
  unfold int8.
  pose proof (Z.mod_pos_bound (bitsRemain - 8 + 128) 256 ltac:(lia)).
  destruct (Z_le_gt_dec bitsRemain 127);
    [rewrite Z.mod_small by lia |]; lia.
Qed.

(** [func write[T integer](w *Writer, value T, bitCount byte)] *)
Definition write (T : width) (w : Writer) (value : Z) (bitCount : Z)
  : option Writer :=
  if bitCount =? 0 then Some w else
  let value := Z.land value (mask T bitCount) in
  let idx := bitsWritten w / 8 in
  let ofs := bitsWritten w mod 8 in
  let bitsRemain := int8 bitCount in
  let partial :=
    if ofs >? 0 then
      match w_data w !! Z.to_nat idx with
      | None => None
      | Some b =>
          let data :=
            <[Z.to_nat idx := Z.lor b (byte (shl T value ofs))]> (w_data w) in
          let bits := int8 (byte (8 - byte ofs)) in
          Some (data, int8 (bitsRemain - bits), Z.shiftr value bits)
      end
    else Some (w_data w, bitsRemain, value) in
  match partial with
  | None => None
  | Some (data, bitsRemain, value) =>
      Some {| w_data := write_loop data value bitsRemain;
              bitsWritten := uint (bitsWritten w + uint bitCount) |}
  end.

Definition NewWriter : Writer := {| w_data := []; bitsWritten := 0 |}.

Definition Writer_BitData (w : Writer) : BitData := w_data w.

Definition WriteBool (w : Writer) (v : bool) : option Writer :=
  if v then write U8 w 1 1 else write U8 w 0 1.

Definition Write8 (w : Writer) (v bitCount : Z) := write U8 w v bitCount.
Definition Write16 (w : Writer) (v bitCount : Z) := write U16 w v bitCount.
Definition Write32 (w : Writer) (v bitCount : Z) := write U32 w v bitCount.
Definition Write64 (w : Writer) (v bitCount : Z) := write U64 w v bitCount.

(** Reader *)

Definition NewReader (data : BitData) : Reader :=
  {| r_data := data; bitsRead := 0 |}.

(** [func (r *Reader) Skip(bitCount uint) { r.bitsRead += bitCount }] *)
Definition Skip (r : Reader) (bitCount : Z) : Reader :=
  {| r_data := r_data r; bitsRead := uint (bitsRead r + bitCount) |}.

(** [data[idx]], used only behind the bounds check
    [idx >= uint(len(data))] of [read]. *)
Definition index (data : BitData) (idx : Z) : Z :=
  default 0 (data !! Z.to_nat idx).

(** The loop of [read]; [None] is the early
    [return 0, io.ErrUnexpectedEOF]. *)
Equations read_loop (T : width) (data : BitData)
    (value idx bitsRead' bitsRemain : Z) : option Z
  by wf (Z.to_nat bitsRemain) lt :=
read_loop T data value idx bitsRead' bitsRemain with Z_gt_dec bitsRemain 0 := {
  | left _ =>
      if idx >=? Z.of_nat (length data) then None
      else
        let v := shl T (conv T (index data idx)) bitsRead' in
        let m := shl T (mask T (byte bitsRemain)) bitsRead' in
        read_loop T data (Z.lor value (Z.land v m)) (uint (idx + 1))
                  (byte (bitsRead' + 8)) (int8 (bitsRemain - 8));
  | right _ => Some value }.
Next Obligation.
  unfold int8.
  pose proof (Z.mod_pos_bound (bitsRemain - 8 + 128) 256 ltac:(lia)).
  destruct (Z_le_gt_dec bitsRemain 127);
    [rewrite Z.mod_small by lia |]; lia.
Qed.

(** [func read[T integer](r *Reader, bitCount byte) (T, error)]: the
    reader after the call, the value and the error. *)
Definition read (T : width) (r : Reader) (bitCount : Z)
  : Reader * Z * option error :=
  if bitCount =? 0 then (r, 0, None) else
  let value := 0 in
  let idx := bitsRead r / 8 in
  let ofs := bitsRead r mod 8 in
  let bitsRemain := int8 bitCount in
  let bitsRead' := 0 in
  let partial :=
    if ofs >? 0 then
      if idx >=? Z.of_nat (length (r_data r)) then None
      else
        let value :=
          Z.land (conv T (Z.shiftr (index (r_data r) idx) ofs))
                 (mask T bitCount) in
        let bits := int8 (byte (8 - byte ofs)) in
        Some (value, uint (idx + 1), byte (bitsRead' + byte bits),
              int8 (bitsRemain - bits))
    else Some (value, idx, bitsRead', bitsRemain) in
  match partial with
  | None => (r, 0, Some ErrUnexpectedEOF)
  | Some (value, idx, bitsRead', bitsRemain) =>
      match read_loop T (r_data r) value idx bitsRead' bitsRemain with
      | None => (r, 0, Some ErrUnexpectedEOF)
      | Some value =>
          ({| r_data := r_data r;
              bitsRead := uint (bitsRead r + uint bitCount) |}, value, None)
      end
  end.

Definition ReadBool (r : Reader) : Reader * bool * option error :=
  let '(r', v, e) := read U8 r 1 in
  match e with
  | Some e => (r', false, Some e)
  | None => (r', negb (v =? 0), None)
  end.

Definition Read8 (r : Reader) (bitCount : Z) : Reader * Z * option error :=
  if bitCount >? 8 then (r, 0, Some ErrBitCountTooBig)
  else read U8 r bitCount.

Definition Read16 (r : Reader) (bitCount : Z) : Reader * Z * option error :=
  if bitCount >? 16 then (r, 0, Some ErrBitCountTooBig)
  else read U16 r bitCount.

Definition Read32 (r : Reader) (bitCount : Z) : Reader * Z * option error :=
  if bitCount >? 32 then (r, 0, Some ErrBitCountTooBig)
  else read U32 r bitCount.

Definition Read64 (r : Reader) (bitCount : Z) : Reader * Z * option error :=
  if bitCount >? 64 then (r, 0, Some ErrBitCountTooBig)
  else read U64 r bitCount.

(** ReaderError *)

Definition NewReaderError (data : BitData) : ReaderError :=
  {| reader := NewReader data; err := None |}.

Definition ReaderError_Error (r : ReaderError) : option error := err r.

Definition ReaderError_Skip (r : ReaderError) (bitCount : Z) : ReaderError :=
  {| reader := Skip (reader r) bitCount; err := err r |}.

Definition ReaderError_ReadBool (r : ReaderError) : ReaderError * bool :=
  match err r with
  | None => let '(rd, v, e) := ReadBool (reader r) in
            ({| reader := rd; err := e |}, v)
  | Some _ => (r, false)
  end.

Definition ReaderError_Read8 (r : ReaderError) (bitCount : Z)
  : ReaderError * Z :=
  match err r with
  | None => let '(rd, v, e) := Read8 (reader r) bitCount in
            ({| reader := rd; err := e |}, v)
  | Some _ => (r, 0)
  end.

Definition ReaderError_Read16 (r : ReaderError) (bitCount : Z)
  : ReaderError * Z :=
  match err r with
  | None => let '(rd, v, e) := Read16 (reader r) bitCount in
            ({| reader := rd; err := e |}, v)
  | Some _ => (r, 0)
  end.

Definition ReaderError_Read32 (r : ReaderError) (bitCount : Z)
  : ReaderError * Z :=
  match err r with
  | None => let '(rd, v, e) := Read32 (reader r) bitCount in
            ({| reader := rd; err := e |}, v)
  | Some _ => (r, 0)
  end.

Definition ReaderError_Read64 (r : ReaderError) (bitCount : Z)
  : ReaderError * Z :=
  match err r with
  | None => let '(rd, v, e) := Read64 (reader r) bitCount in
            ({| reader := rd; err := e |}, v)
  | Some _ => (r, 0)
  end.

(** ** Call sequences

    The exported methods as data, to state properties of sequences of
    calls. *)

Definition WriteT (T : width) : Writer -> Z -> Z -> option Writer :=
  match T with
  | U8 => Write8 | U16 => Write16 | U32 => Write32 | U64 => Write64
  end.

Definition ReadT (T : width) : Reader -> Z -> Reader * Z * option error :=
  match T with
  | U8 => Read8 | U16 => Read16 | U32 => Read32 | U64 => Read64
  end.

Definition ReaderError_ReadT (T : width)
  : ReaderError -> Z -> ReaderError * Z :=
  match T with
  | U8 => ReaderError_Read8 | U16 => ReaderError_Read16
  | U32 => ReaderError_Read32 | U64 => ReaderError_Read64
  end.

(** A value returned by a read: a [bool] or an unsigned integer. *)
Inductive val := VBool (b : bool) | VInt (z : Z).

(** A call of a write method. *)
Inductive wcall :=
| CallWriteBool (v : bool)
| CallWrite (T : width) (v bitCount : Z).

Definition do_write (w : Writer) (c : wcall) : option Writer :=
  match c with
  | CallWriteBool v => WriteBool w v
  | CallWrite T v bitCount => WriteT T w v bitCount
  end.

Fixpoint writes (cs : list wcall) (w : Writer) : option Writer :=
  match cs with
  | [] => Some w
  | c :: cs =>
      match do_write w c with
      | None => None
      | Some w' => writes cs w'
      end
  end.

(** The number of bits a call writes, and the value it writes. *)
Definition wcall_bits (c : wcall) : Z :=
  match c with
  | CallWriteBool _ => 1
  | CallWrite _ _ bitCount => bitCount
  end.

Definition wcall_val (c : wcall) : val :=
  match c with
  | CallWriteBool v => VBool v
  | CallWrite _ v _ => VInt v
  end.

Definition total_bits (cs : list wcall) : Z :=
  fold_right (fun c s => wcall_bits c + s) 0 cs.

(** A call of a read method. *)
Inductive rcall :=
| CallReadBool
| CallRead (T : width) (bitCount : Z).

Definition do_read (r : Reader) (c : rcall) : Reader * val * option error :=
  match c with
  | CallReadBool =>
      let '(r', v, e) := ReadBool r in (r', VBool v, e)
  | CallRead T bitCount =>
      let '(r', v, e) := ReadT T r bitCount in (r', VInt v, e)
  end.

(** All the calls in order, with what each returned. *)
Fixpoint reads (cs : list rcall) (r : Reader)
  : Reader * list (val * option error) :=
  match cs with
  | [] => (r, [])
  | c :: cs =>
      let '(r', v, e) := do_read r c in
      let '(r'', out) := reads cs r' in
      (r'', (v, e) :: out)
  end.

(** The read that mirrors a write. *)
Definition read_back (c : wcall) : rcall :=
  match c with
  | CallWriteBool _ => CallReadBool
  | CallWrite T _ bitCount => CallRead T bitCount
  end.

(** A step of a Reader's client: a read or a [Skip]. *)
Inductive rop :=
| OpCall (c : rcall)
| OpSkip (bitCount : Z).

Definition step (r : Reader) (o : rop) : Reader :=
  match o with
  | OpCall c => (do_read r c).1.1
  | OpSkip bitCount => Skip r bitCount
  end.

Definition steps (os : list rop) (r : Reader) : Reader := fold_left step os r.

(** The zero value of the container of a read. *)
Definition zero (c : rcall) : val :=
  match c with
  | CallReadBool => VBool false
  | CallRead _ _ => VInt 0
  end.

Definition rcall_bits (c : rcall) : Z :=
  match c with
  | CallReadBool => 1
  | CallRead _ bitCount => bitCount
  end.

Definition sticky_read (r : ReaderError) (c : rcall) : ReaderError * val :=
  match c with
  | CallReadBool =>
      let '(r', v) := ReaderError_ReadBool r in (r', VBool v)
  | CallRead T bitCount =>
      let '(r', v) := ReaderError_ReadT T r bitCount in (r', VInt v)
  end.

(** A step of a ReaderError's client, with the values it returned. *)
Definition sticky_step (r : ReaderError) (o : rop) : ReaderError * list val :=
  match o with
  | OpCall c => let '(r', v) := sticky_read r c in (r', [v])
  | OpSkip bitCount => (ReaderError_Skip r bitCount, [])
  end.

Fixpoint sticky_steps (os : list rop) (r : ReaderError)
  : ReaderError * list val :=
  match os with
  | [] => (r, [])
  | o :: os =>
      let '(r', vs) := sticky_step r o in
      let '(r'', out) := sticky_steps os r' in
      (r'', vs ++ out)
  end.

(** The reads among the steps, and the effect of the [Skip]s alone. *)
Definition calls (os : list rop) : list rcall :=
  flat_map (fun o => match o with OpCall c => [c] | OpSkip _ => [] end) os.

Definition skips (os : list rop) (r : Reader) : Reader :=
  fold_left (fun r o => match o with
                        | OpCall _ => r
                        | OpSkip bitCount => Skip r bitCount
                        end) os r.

(** ** Specification vocabulary *)

(** Bit [i] of the packed sequence: bit [i mod 8] of byte [i / 8], and 0
    past the end. *)
Definition bit (data : BitData) (i : Z) : bool :=
  Z.testbit (index data (i / 8)) (i mod 8).

Definition bytes_ok (data : BitData) : Prop :=
  Forall (fun b => 0 <= b < 256) data.

Definition byte_len (data : BitData) : Z := Z.of_nat (length data).

(** [ceil (n / 8)] *)
Definition ceil8 (n : Z) : Z := (n + 7) / 8.

(** The states of a Writer that keeps its buffer and its cursor in step. *)
Record writer_inv (w : Writer) : Prop := {
  inv_cursor : 0 <= bitsWritten w < 2 ^ 64;
  inv_len : byte_len (w_data w) = ceil8 (bitsWritten w);
  inv_bytes : bytes_ok (w_data w);
  inv_pad : forall i, bitsWritten w <= i -> bit (w_data w) i = false
}.

(** A call whose bit count is within the width of its container and whose
    value is already masked to that many bits. *)
Definition wcall_masked (c : wcall) : Prop :=
  match c with
  | CallWriteBool _ => True
  | CallWrite T v bitCount =>
      1 <= bitCount <= bits T /\ 0 <= v < 2 ^ bitCount
  end.

(** The width of the container of a read, 1 for a [bool]. *)
Definition rcall_width (c : rcall) : Z :=
  match c with
  | CallReadBool => 1
  | CallRead T _ => bits T
  end.

(** The value a read returns when it has assembled the word [z]. *)
Definition rcall_val (c : rcall) (z : Z) : val :=
  match c with
  | CallReadBool => VBool (negb (z =? 0))
  | CallRead _ _ => VInt z
  end.

(** A Reader whose cursor is a [uint] and whose buffer has a bit length
    that a [uint] can hold, that is, fewer than 2^61 bytes. *)
Record reader_ok (r : Reader) : Prop := {
  ok_cursor : 0 <= bitsRead r < 2 ^ 64;
  ok_buffer : 8 * byte_len (r_data r) < 2 ^ 64
}.

(** The word a call puts on the wire: its value as [write] masks it. *)
Definition wcall_word (c : wcall) : Z :=
  match c with
  | CallWriteBool v => Z.land (if v then 1 else 0) (mask U8 1)
  | CallWrite T v bitCount => Z.land v (mask T bitCount)
  end.

(** A call whose bit count is within the width of its container. *)
Definition wcall_within (c : wcall) : Prop :=
  match c with
  | CallWriteBool _ => True
  | CallWrite T _ bitCount => 0 <= bitCount <= bits T
  end.

Example scenario_A_write :
  (w1 ← Write8 NewWriter 29 5; w2 ← Write8 w1 6 4; Write16 w2 2748 12)
  = Some {| w_data := [221; 120; 21]; bitsWritten := 21 |}.
Proof. vm_compute. reflexivity. Qed.

Example scenario_A_read :
  let r := NewReader [221; 120; 21] in
  let '(r1, a, _) := Read8 r 5 in
  let '(r2, b, _) := Read8 r1 4 in
  let '(r3, c, e) := Read16 r2 12 in
  (a, b, c, e, bitsRead r3) = (29, 6, 2748, None, 21).
Proof. vm_compute. reflexivity. Qed.

(** The first error in what a sequence of reads returned. *)
Fixpoint first_error (out : list (val * option error)) : option error :=
  match out with
  | [] => None
  | (_, Some e) :: _ => Some e
  | (_, None) :: out => first_error out
  end.

(** What a ReaderError hands out for reads that a Reader answered with
    [out]: the values up to the first failure, zero values from there on. *)
Fixpoint sticky_values (cs : list rcall) (out : list (val * option error))
  : list val :=
  match cs, out with
  | _ :: cs', (v, None) :: out' => v :: sticky_values cs' out'
  | _, _ => map zero cs
  end.

(** A read that takes back what a write put: the same bit count, in a
    container that is wide enough. *)
Inductive mirrors : wcall -> rcall -> Prop :=
| mirrors_bool (v : bool) : mirrors (CallWriteBool v) CallReadBool
| mirrors_int (T T' : width) (v bitCount : Z) :
    bitCount <= bits T' ->
    mirrors (CallWrite T v bitCount) (CallRead T' bitCount).

(** The cases of the repository's tests, replayed on the embedding. *)

Example big_values_write :
  (w1 ← Write64 NewWriter 16045690984229469933 64;
   w2 ← Write16 w1 52973 16;
   w3 ← Write32 w2 4277001901 32;
   Some (byte_len (Writer_BitData w3), bitsWritten w3))
  = Some (14, 112).
Proof. vm_compute. reflexivity. Qed.

Example test_error :
  let d := [255; 127] in
  writes [CallWrite U8 63 6; CallWrite U8 31 5; CallWrite U8 15 4] NewWriter
  = Some {| w_data := d; bitsWritten := 15 |} /\
  (ReadBool (NewReader [])).2 = Some ErrUnexpectedEOF /\
  (reads [CallRead U8 10; CallRead U16 20; CallRead U32 40; CallRead U64 65;
          CallRead U16 10; CallRead U8 7] (NewReader d)).2
  = [(VInt 0, Some ErrBitCountTooBig); (VInt 0, Some ErrBitCountTooBig);
     (VInt 0, Some ErrBitCountTooBig); (VInt 0, Some ErrBitCountTooBig);
     (VInt 1023, None); (VInt 0, Some ErrUnexpectedEOF)].
Proof. vm_compute. repeat split; reflexivity. Qed.

Example test_too_many_bits :
  exists w,
    Write8 NewWriter 15 10 = Some w /\
    (reads [CallRead U8 4; CallRead U16 12; CallReadBool]
       (NewReader (Writer_BitData w))).2
    = [(VInt 15, None); (VInt 0, None); (VBool false, Some ErrUnexpectedEOF)] /\
    option_map (fun w => byte_len (Writer_BitData w)) (Write64 w 15 118)
    = Some 16.
Proof. eexists. split; [vm_compute; reflexivity |]. vm_compute. auto. Qed.

Example test_reader_error :
  ReaderError_Error
    (ReaderError_Read8 (NewReaderError [255]) 8).1 = None /\
  ReaderError_Error
    (ReaderError_Read8 (ReaderError_Skip (NewReaderError []) 12) 8).1
  = Some ErrUnexpectedEOF.
Proof. vm_compute. auto. Qed.

(** ** Machine integers: bit-level facts *)

Lemma bits_range (T : width) : 8 <= bits T <= 64.
Proof. destruct T; simpl; lia. Qed.

Lemma testbit_mod_pow2 (x n i : Z) :
  0 <= n -> 0 <= i -> Z.testbit (x mod 2 ^ n) i = (i <? n) && Z.testbit x i.
Proof.
  intros Hn Hi. destruct (Z.ltb_spec i n).
  - rewrite Z.mod_pow2_bits_low by lia. reflexivity.
  - rewrite Z.mod_pow2_bits_high by lia. reflexivity.
Qed.

Lemma testbit_conv (T : width) (x i : Z) :
  0 <= i -> Z.testbit (conv T x) i = (i <? bits T) && Z.testbit x i.
Proof.
  intros. unfold conv. pose proof (bits_range T).
  apply testbit_mod_pow2; lia.
Qed.

Lemma testbit_byte (x i : Z) :
  0 <= i -> Z.testbit (byte x) i = (i <? 8) && Z.testbit x i.
Proof. intros. unfold byte. apply testbit_mod_pow2; lia. Qed.

Lemma testbit_shl (T : width) (x k i : Z) :
  0 <= i -> Z.testbit (shl T x k) i = (i <? bits T) && Z.testbit x (i - k).
Proof.
  intros. unfold shl. rewrite testbit_conv, Z.shiftl_spec by lia.
  reflexivity.
Qed.

Lemma testbit_pow2_pred (n i : Z) :
  0 <= n -> 0 <= i -> Z.testbit (2 ^ n - 1) i = (i <? n).
Proof.
  intros Hn Hi. rewrite Z.sub_1_r, <- Z.ones_equiv.
  destruct (Z.ltb_spec i n).
  - apply Z.ones_spec_low; lia.
  - apply Z.ones_spec_high; lia.
Qed.

Lemma conv_small (T : width) (x : Z) : 0 <= x < 2 ^ bits T -> conv T x = x.
Proof. intros. unfold conv. apply Z.mod_small; assumption. Qed.

(** What [mask] computes: shifting [T(1)] out of the type gives 0, and
    [0 - 1] wraps to the maximal value of [T]. *)
Lemma mask_value (T : width) (n : Z) :
  0 <= n -> mask T n = 2 ^ Z.min n (bits T) - 1.
Proof.
  intros Hn. pose proof (bits_range T) as HT.
  unfold mask, shl. rewrite Z.shiftl_1_l.
  destruct (Z_lt_le_dec n (bits T)) as [Hlt | Hge].
  - rewrite Z.min_l by lia.
    assert (0 < 2 ^ n < 2 ^ bits T)
      by (split; [apply Z.pow_pos_nonneg | apply Z.pow_lt_mono_r]; lia).
    rewrite (conv_small T (2 ^ n)) by lia.
    apply conv_small. lia.
  - rewrite Z.min_r by lia.
    assert (0 < 2 ^ bits T) by (apply Z.pow_pos_nonneg; lia).
    assert (Hz : conv T (2 ^ n) = 0).
    { unfold conv. replace n with ((n - bits T) + bits T) by lia.
      rewrite Z.pow_add_r by lia. apply Z.mod_mul. lia. }
    rewrite Hz. unfold conv.
    replace (0 - 1) with (2 ^ bits T - 1 + (-1) * 2 ^ bits T) by lia.
    rewrite Z.mod_add by lia. apply Z.mod_small. lia.
Qed.

Lemma testbit_mask (T : width) (n i : Z) :
  0 <= n -> 0 <= i -> Z.testbit (mask T n) i = (i <? Z.min n (bits T)).
Proof.
  intros. pose proof (bits_range T). rewrite mask_value by lia.
  apply testbit_pow2_pred; lia.
Qed.

Lemma mask_nonneg (T : width) (n : Z) : 0 <= mask T n.
Proof.
  unfold mask, conv. pose proof (bits_range T).
  apply Z.mod_pos_bound. apply Z.pow_pos_nonneg; lia.
Qed.

(** C5: for each container width W in 8, 16, 32, 64 and each n with
    0 <= n <= W, [mask] returns the value whose low n bits are 1 and whose
    other bits are 0; for n = W it is the maximal value of the type,
    2^W - 1, not zero. *)
Theorem mask_contract (T : width) (n : Z) :
  0 <= n <= bits T ->
  mask T n = 2 ^ n - 1 /\
  (forall i, 0 <= i -> Z.testbit (mask T n) i = (i <? n)) /\
  (n = bits T -> mask T n = 2 ^ bits T - 1 /\ mask T n <> 0).
Proof.
  intros Hn. pose proof (bits_range T) as HT.
  assert (Hv : mask T n = 2 ^ n - 1)
    by (rewrite mask_value, Z.min_l by lia; reflexivity).
  split; [exact Hv |]. split.
  - intros i Hi. rewrite Hv. apply testbit_pow2_pred; lia.
  - intros ->. split; [exact Hv |]. rewrite Hv.
    assert (2 ^ 8 <= 2 ^ bits T) by (apply Z.pow_le_mono_r; lia).
    change (2 ^ 8) with 256 in *. lia.
Qed.

Lemma mask_contract_witness :
  mask U8 8 = 2 ^ 8 - 1 /\
  (forall i, 0 <= i -> Z.testbit (mask U8 8) i = (i <? 8)) /\
  (8 = bits U8 -> mask U8 8 = 2 ^ bits U8 - 1 /\ mask U8 8 <> 0).
Proof. apply (mask_contract U8 8). simpl. lia. Defined.

(** ** Guards of the exported reads *)

Lemma ReadT_zero (T : width) (r : Reader) : ReadT T r 0 = (r, 0, None).
Proof. destruct T; reflexivity. Qed.

Lemma ReadT_too_big (T : width) (r : Reader) (bitCount : Z) :
  bits T < bitCount -> ReadT T r bitCount = (r, 0, Some ErrBitCountTooBig).
Proof.
  intros H. destruct T; simpl in H; cbn [ReadT];
    unfold Read8, Read16, Read32, Read64;
    rewrite (proj2 (Z.gtb_lt _ _)) by lia; reflexivity.
Qed.

(** C9: a write of 0 bits leaves the buffer and the cursor of every Writer
    as they are; a read of 0 bits returns the zero value of the container
    and no error, and leaves the cursor of every Reader as it is. *)
Theorem zero_width_noop (T : width) :
  (forall w v, write T w v 0 = Some w /\ WriteT T w v 0 = Some w) /\
  (forall r, read T r 0 = (r, 0, None) /\ ReadT T r 0 = (r, 0, None)).
Proof.
  split; [intros w v | intros r]; split; try reflexivity.
  - destruct T; reflexivity.
  - apply ReadT_zero.
Qed.

(** C4: a read of more bits than the width W of its container (8, 16, 32
    or 64) returns the zero value and ErrBitCountTooBig and leaves the
    Reader, cursor included, as it was, whatever the buffer holds and
    wherever the cursor is: the buffer is not consulted. *)
Theorem width_overflow_guard (T : width) (r : Reader) (bitCount : Z) :
  bits T < bitCount ->
  ReadT T r bitCount = (r, 0, Some ErrBitCountTooBig) /\
  (forall data cursor,
      (ReadT T {| r_data := data; bitsRead := cursor |} bitCount).2
      = Some ErrBitCountTooBig) /\
  bitsRead (ReadT T r bitCount).1.1 = bitsRead r.
Proof.
  intros H.
  pose proof (fun r' => ReadT_too_big T r' bitCount H) as G.
  split; [apply G |]. split.
  - intros data cursor. rewrite G. reflexivity.
  - rewrite G. reflexivity.
Qed.

Lemma width_overflow_guard_witness :
  ReadT U8 (NewReader [255; 255]) 10
  = (NewReader [255; 255], 0, Some ErrBitCountTooBig).
Proof.
  apply (width_overflow_guard U8 (NewReader [255; 255]) 10). simpl. lia.
Defined.

(** ** Failing reads *)

(** A failing [read] returns the zero value and leaves the Reader as it
    was; its only error is the end of the data. *)
Lemma read_failure (T : width) (r r' : Reader) (n v : Z) (e : error) :
  read T r n = (r', v, Some e) -> r' = r /\ v = 0 /\ e = ErrUnexpectedEOF.
Proof.
  unfold read. destruct (n =? 0); [discriminate |].
  destruct (bitsRead r mod 8 >? 0).
  - destruct (_ >=? _); [intros [= <- <- <-]; auto |].
    destruct (read_loop _ _ _ _ _ _); intros [= <- <- <-]; auto.
  - destruct (read_loop _ _ _ _ _ _); intros [= <- <- <-]; auto.
Qed.

Lemma ReadT_failure (T : width) (r r' : Reader) (n v : Z) (e : error) :
  ReadT T r n = (r', v, Some e) -> r' = r /\ v = 0.
Proof.
  destruct T; cbn [ReadT]; unfold Read8, Read16, Read32, Read64;
    destruct (n >? _);
    try (intros [= <- <- <-]; auto);
    intros H; apply read_failure in H; tauto.
Qed.

Lemma ReadBool_failure (r r' : Reader) (v : bool) (e : error) :
  ReadBool r = (r', v, Some e) -> r' = r /\ v = false.
Proof.
  unfold ReadBool. destruct (read U8 r 1) as [[r1 v1] [e1 |]] eqn:E.
  - intros [= <- <- <-]. apply read_failure in E. tauto.
  - discriminate.
Qed.

Lemma do_read_failure (r r' : Reader) (c : rcall) (v : val) (e : error) :
  do_read r c = (r', v, Some e) -> r' = r /\ v = zero c.
Proof.
  destruct c as [| T n]; cbn [do_read zero].
  - destruct (ReadBool r) as [[r1 v1] e1] eqn:E. intros [= <- <- ->].
    apply ReadBool_failure in E. destruct E as [-> ->]. auto.
  - destruct (ReadT T r n) as [[r1 v1] e1] eqn:E. intros [= <- <- ->].
    apply ReadT_failure in E. destruct E as [-> ->]. auto.
Qed.

(** ** The sticky reader *)

Lemma sticky_read_errored (r : ReaderError) (c : rcall) (e : error) :
  err r = Some e -> sticky_read r c = (r, zero c).
Proof.
  intros H. destruct c as [| T n]; cbn [sticky_read zero].
  - unfold ReaderError_ReadBool. rewrite H. reflexivity.
  - destruct T; cbn [ReaderError_ReadT];
      unfold ReaderError_Read8, ReaderError_Read16, ReaderError_Read32,
        ReaderError_Read64; rewrite H; reflexivity.
Qed.

Lemma sticky_read_delegates (r : ReaderError) (c : rcall) :
  err r = None ->
  sticky_read r c =
    ({| reader := (do_read (reader r) c).1.1; err := (do_read (reader r) c).2 |},
     (do_read (reader r) c).1.2).
Proof.
  intros H. destruct c as [| T n]; cbn [sticky_read do_read].
  - unfold ReaderError_ReadBool. rewrite H.
    destruct (ReadBool (reader r)) as [[r1 v1] e1]. reflexivity.
  - destruct T; cbn [ReaderError_ReadT ReadT];
      unfold ReaderError_Read8, ReaderError_Read16, ReaderError_Read32,
        ReaderError_Read64; rewrite H;
      match goal with |- context [?f (reader r) n] =>
        destruct (f (reader r) n) as [[r1 v1] e1] end; reflexivity.
Qed.

Lemma sticky_steps_errored (os : list rop) (r : ReaderError) (e : error) :
  err r = Some e ->
  sticky_steps os r =
    ({| reader := skips os (reader r); err := Some e |}, map zero (calls os)).
Proof.
  revert r. induction os as [| o os IH]; intros r H.
  - destruct r as [rd er]. simpl in *. subst. reflexivity.
  - destruct o as [c | n]; cbn [sticky_steps sticky_step].
    + rewrite (sticky_read_errored r c e H), (IH r H). reflexivity.
    + rewrite (IH (ReaderError_Skip r n) H). reflexivity.
Qed.

(** C6: when a read of a ReaderError without stored error fails with an
    error e, that read returns the zero value of its container and e is
    stored; from then on, whatever reads and Skips follow, every read
    returns the zero value, no read is passed on to the Reader (only the
    Skips move the cursor), and Error() stays e, also for a read that the
    Reader would have refused with another error. *)
Theorem sticky_freeze (r : ReaderError) (c : rcall) (e : error)
    (os : list rop) :
  ReaderError_Error r = None ->
  (do_read (reader r) c).2 = Some e ->
  let r1 := (sticky_read r c).1 in
  (sticky_read r c).2 = zero c /\
  ReaderError_Error r1 = Some e /\
  reader r1 = reader r /\
  (sticky_steps os r1).2 = map zero (calls os) /\
  ReaderError_Error (sticky_steps os r1).1 = Some e /\
  reader (sticky_steps os r1).1 = skips os (reader r).
Proof.
  unfold ReaderError_Error. intros Hok Hfail.
  rewrite (sticky_read_delegates r c Hok).
  destruct (do_read (reader r) c) as [[rd v] e'] eqn:E.
  cbn in Hfail. subst e'.
  destruct (do_read_failure _ _ _ _ _ E) as [-> ->].
  cbn [fst snd err reader].
  rewrite (sticky_steps_errored os {| reader := reader r; err := Some e |} e)
    by reflexivity.
  cbn [fst snd err reader]. auto 6.
Qed.

Lemma sticky_freeze_witness :
  let r := NewReaderError [255] in
  let os := [OpCall (CallRead U8 10); OpSkip 3; OpCall CallReadBool] in
  ReaderError_Error r = None /\
  (do_read (reader r) (CallRead U16 9)).2 = Some ErrUnexpectedEOF /\
  (do_read (reader r) (CallRead U8 10)).2 = Some ErrBitCountTooBig /\
  (sticky_steps os (sticky_read r (CallRead U16 9)).1).2
  = [VInt 0; VBool false] /\
  ReaderError_Error (sticky_steps os (sticky_read r (CallRead U16 9)).1).1
  = Some ErrUnexpectedEOF.
Proof.
  intros r os.
  pose proof (sticky_freeze r (CallRead U16 9) ErrUnexpectedEOF os
                eq_refl eq_refl) as H.
  repeat split; try reflexivity; apply H.
Defined.

(** ** Bytes and bits of a packed sequence *)

Ltac dlia := Z.div_mod_to_equations; lia.

Lemma int8_small (x : Z) : -128 <= x <= 127 -> int8 x = x.
Proof. intros. unfold int8. rewrite Z.mod_small by lia. lia. Qed.

Lemma byte_small (x : Z) : 0 <= x < 256 -> byte x = x.
Proof. intros. unfold byte. apply Z.mod_small. simpl. lia. Qed.

Lemma uint_small (x : Z) : 0 <= x < 2 ^ 64 -> uint x = x.
Proof. intros. unfold uint. apply Z.mod_small. assumption. Qed.

Lemma byte_range (x : Z) : 0 <= byte x < 256.
Proof. unfold byte. apply Z.mod_pos_bound. reflexivity. Qed.

Lemma byte_len_nonneg (data : BitData) : 0 <= byte_len data.
Proof. unfold byte_len. lia. Qed.

Lemma byte_len_app (data x : BitData) :
  byte_len (data ++ x) = byte_len data + byte_len x.
Proof. unfold byte_len. rewrite length_app. lia. Qed.

Lemma index_app_l (data x : BitData) (i : Z) :
  0 <= i < byte_len data -> index (data ++ x) i = index data i.
Proof.
  unfold index, byte_len. intros. rewrite lookup_app_l by lia. reflexivity.
Qed.

Lemma index_app_r (data x : BitData) (i : Z) :
  byte_len data <= i -> index (data ++ x) i = index x (i - byte_len data).
Proof.
  unfold index, byte_len. intros. rewrite lookup_app_r by lia.
  do 2 f_equal. lia.
Qed.

Lemma index_beyond (data : BitData) (i : Z) :
  byte_len data <= i -> index data i = 0.
Proof.
  unfold index, byte_len. intros.
  rewrite lookup_ge_None_2 by lia. reflexivity.
Qed.

Lemma index_lookup (data : BitData) (i b : Z) :
  data !! Z.to_nat i = Some b -> index data i = b.
Proof. unfold index. intros ->. reflexivity. Qed.

Lemma index_range (data : BitData) (i : Z) :
  bytes_ok data -> 0 <= index data i < 256.
Proof.
  unfold index, bytes_ok. intros H.
  destruct (data !! Z.to_nat i) as [b |] eqn:E; simpl; [| lia].
  exact (proj1 (Forall_lookup _ _) H _ _ E).
Qed.

Lemma index_insert (data : BitData) (i j b : Z) :
  0 <= i -> 0 <= j < byte_len data ->
  index (<[Z.to_nat j := b]> data) i = if i =? j then b else index data i.
Proof.
  unfold index, byte_len. intros Hi Hj. destruct (Z.eqb_spec i j) as [-> | Hne].
  - rewrite list_lookup_insert_eq by lia. reflexivity.
  - rewrite list_lookup_insert_ne by lia. reflexivity.
Qed.

Lemma testbit_small (x n i : Z) :
  0 <= x < 2 ^ n -> 0 <= n <= i -> Z.testbit x i = false.
Proof.
  intros Hx Hn. rewrite <- (Z.mod_small x (2 ^ n)) by assumption.
  apply Z.mod_pow2_bits_high. lia.
Qed.

Lemma bit_app_l (data x : BitData) (i : Z) :
  0 <= i < 8 * byte_len data -> bit (data ++ x) i = bit data i.
Proof. intros. unfold bit. rewrite index_app_l by dlia. reflexivity. Qed.

Lemma bit_app_r (data x : BitData) (i : Z) :
  8 * byte_len data <= i -> bit (data ++ x) i = bit x (i - 8 * byte_len data).
Proof.
  intros. unfold bit. rewrite index_app_r by dlia.
  f_equal; [f_equal |]; dlia.
Qed.

Lemma bit_beyond (data : BitData) (i : Z) :
  8 * byte_len data <= i -> bit data i = false.
Proof.
  intros. unfold bit. rewrite index_beyond by dlia. apply Z.testbit_0_l.
Qed.

Lemma bit_single (b i : Z) :
  0 <= b < 256 -> 0 <= i -> bit [b] i = Z.testbit b i.
Proof.
  intros Hb Hi. destruct (Z_lt_le_dec i 8).
  - unfold bit. rewrite Z.div_small, Z.mod_small by lia. reflexivity.
  - rewrite bit_beyond by (unfold byte_len; simpl; lia).
    symmetry. apply (testbit_small b 8); simpl; lia.
Qed.

(** ** The loop of [write] *)

Lemma write_loop_length (data : BitData) (value bitsRemain : Z) :
  bitsRemain <= 127 ->
  byte_len (write_loop data value bitsRemain)
  = byte_len data + ceil8 (Z.max bitsRemain 0).
Proof.
  funelim (write_loop data value bitsRemain); intros Hle.
  - rewrite int8_small in * by lia.
    match goal with IH : _ -> byte_len _ = _ |- _ => rewrite IH by lia end.
    rewrite byte_len_app. unfold ceil8, byte_len. simpl length. dlia.
  - unfold ceil8. dlia.
Qed.

Lemma write_loop_bytes_ok (data : BitData) (value bitsRemain : Z) :
  bytes_ok data -> bytes_ok (write_loop data value bitsRemain).
Proof.
  funelim (write_loop data value bitsRemain); intros Hok; [| assumption].
  match goal with IH : _ -> bytes_ok _ |- _ => apply IH end.
  apply Forall_app. split; [assumption |].
  constructor; [apply byte_range | constructor].
Qed.

Lemma shiftr_bound (value n k : Z) :
  0 <= k -> 0 <= value < 2 ^ Z.max n 0 ->
  0 <= Z.shiftr value k < 2 ^ Z.max (n - k) 0.
Proof.
  intros Hk Hv. rewrite Z.shiftr_div_pow2 by lia.
  assert (0 < 2 ^ k) by (apply Z.pow_pos_nonneg; lia).
  split; [apply Z.div_pos; lia |].
  apply Z.div_lt_upper_bound; [lia |].
  rewrite <- Z.pow_add_r by lia.
  eapply Z.lt_le_trans; [apply Hv |].
  apply Z.pow_le_mono_r; lia.
Qed.

Lemma write_loop_bits (data : BitData) (value bitsRemain : Z) :
  bitsRemain <= 127 -> 0 <= value < 2 ^ Z.max bitsRemain 0 ->
  forall i, 0 <= i ->
    bit (write_loop data value bitsRemain) i
    = if i <? 8 * byte_len data then bit data i
      else Z.testbit value (i - 8 * byte_len data).
Proof.
  funelim (write_loop data value bitsRemain); intros Hle Hv i Hi.
  - rewrite int8_small in * by lia.
    match goal with IH : _ -> _ -> forall i, _ |- _ =>
      rewrite IH by (try apply shiftr_bound; lia) end.
    rewrite byte_len_app. change (byte_len [byte value]) with 1.
    pose proof (byte_len_nonneg data).
    destruct (Z.ltb_spec i (8 * (byte_len data + 1)));
      destruct (Z.ltb_spec i (8 * byte_len data)); try lia.
    + apply bit_app_l. lia.
    + rewrite bit_app_r, bit_single, testbit_byte by (try apply byte_range; lia).
      rewrite (proj2 (Z.ltb_lt _ _)) by lia. reflexivity.
    + rewrite Z.shiftr_spec by lia. f_equal. lia.
  - pose proof (byte_len_nonneg data).
    rewrite Z.max_r in Hv by lia. replace value with 0 by (simpl in Hv; lia).
    rewrite Z.testbit_0_l.
    destruct (Z.ltb_spec i (8 * byte_len data)); [reflexivity |].
    apply bit_beyond. lia.
Qed.

(** ** A single [write] *)

Lemma land_mask (T : width) (v n : Z) :
  0 <= n -> Z.land v (mask T n) = v mod 2 ^ Z.min n (bits T).
Proof.
  intros. pose proof (bits_range T). rewrite mask_value by lia.
  rewrite Z.sub_1_r, <- Z.ones_equiv. apply Z.land_ones. lia.
Qed.

Lemma masked_range (T : width) (v n : Z) :
  0 <= n -> 0 <= Z.land v (mask T n) < 2 ^ n.
Proof.
  intros. pose proof (bits_range T). rewrite land_mask by lia.
  assert (0 < 2 ^ Z.min n (bits T)) by (apply Z.pow_pos_nonneg; lia).
  pose proof (Z.mod_pos_bound v (2 ^ Z.min n (bits T)) ltac:(lia)).
  assert (2 ^ Z.min n (bits T) <= 2 ^ n) by (apply Z.pow_le_mono_r; lia).
  lia.
Qed.

Lemma lor_byte_range (a b : Z) :
  0 <= a < 256 -> 0 <= b < 256 -> 0 <= Z.lor a b < 256.
Proof.
  intros Ha Hb. split; [apply Z.lor_nonneg; lia |].
  assert (E : Z.lor a b = Z.lor a b mod 2 ^ 8).
  { apply Z.bits_inj'. intros i Hi.
    rewrite testbit_mod_pow2 by lia.
    destruct (Z.ltb_spec i 8); [reflexivity |].
    rewrite Z.lor_spec, (testbit_small a 8), (testbit_small b 8) by (simpl; lia).
    reflexivity. }
  rewrite E. apply Z.mod_pos_bound. reflexivity.
Qed.

Lemma bit_insert (data : BitData) (idx b i : Z) :
  0 <= i -> 0 <= idx < byte_len data ->
  bit (<[Z.to_nat idx := b]> data) i
  = if i / 8 =? idx then Z.testbit b (i mod 8) else bit data i.
Proof.
  intros Hi Hidx. unfold bit. rewrite index_insert by dlia.
  destruct (i / 8 =? idx); reflexivity.
Qed.

Lemma bytes_ok_insert (data : BitData) (idx : nat) (b : Z) :
  bytes_ok data -> 0 <= b < 256 -> bytes_ok (<[idx := b]> data).
Proof. intros. apply Forall_insert; assumption. Qed.

Lemma write_spec (T : width) (w : Writer) (v n : Z) :
  writer_inv w -> 1 <= n <= 127 -> bitsWritten w + n < 2 ^ 64 ->
  exists w',
    write T w v n = Some w' /\ writer_inv w' /\
    bitsWritten w' = bitsWritten w + n /\
    forall i, 0 <= i ->
      bit (w_data w') i
      = if i <? bitsWritten w then bit (w_data w) i
        else Z.testbit (Z.land v (mask T n)) (i - bitsWritten w).
Proof.
  intros [Hc Hlen Hok Hpad] Hn Hfit. destruct w as [data bw]. simpl in *.
  pose proof (bits_range T) as HT.
  pose proof (masked_range T v n ltac:(lia)) as Hv.
  unfold write. cbn [w_data bitsWritten].
  rewrite (proj2 (Z.eqb_neq n 0)) by lia.
  set (v' := Z.land v (mask T n)) in *.
  assert (Hcur : uint (bw + uint n) = bw + n).
  { rewrite (uint_small n) by lia. apply uint_small. lia. }
  rewrite Hcur, (int8_small n) by lia.
  unfold ceil8 in Hlen.
  destruct (Z.gtb_spec (bw mod 8) 0) as [Hofs | Hofs].
  - assert (Hidx : 0 <= bw / 8 < byte_len data) by dlia.
    destruct (lookup_lt_is_Some_2 data (Z.to_nat (bw / 8))
                ltac:(unfold byte_len in Hidx; lia)) as [b Hb].
    rewrite Hb. rewrite (byte_small (bw mod 8)) by dlia.
    rewrite (byte_small (8 - bw mod 8)) by dlia.
    rewrite (int8_small (8 - bw mod 8)) by dlia.
    rewrite (int8_small (n - _)) by dlia.
    set (b' := Z.lor b _).
    assert (Hbr : 0 <= b < 256)
      by (rewrite <- (index_lookup _ _ _ Hb); apply index_range; assumption).
    assert (Hb' : 0 <= b' < 256)
      by (apply lor_byte_range; [assumption | apply byte_range]).
    set (data1 := <[Z.to_nat (bw / 8) := b']> data).
    assert (Hlen1 : byte_len data1 = byte_len data)
      by (unfold byte_len, data1; rewrite length_insert; reflexivity).
    assert (Hbits : forall i, 0 <= i ->
      bit (write_loop data1 (Z.shiftr v' (8 - bw mod 8)) (n - (8 - bw mod 8))) i
      = if i <? bw then bit data i else Z.testbit v' (i - bw)).
    { intros i Hi.
      rewrite write_loop_bits
        by (try apply shiftr_bound; try rewrite Z.max_l by lia; dlia).
      rewrite Hlen1.
      destruct (Z.ltb_spec i (8 * byte_len data)) as [Hin | Hout].
      - unfold data1. rewrite bit_insert by lia.
        destruct (Z.eqb_spec (i / 8) (bw / 8)) as [Heq | Hne].
        + unfold b'. rewrite Z.lor_spec, testbit_byte, testbit_shl by dlia.
          rewrite <- (index_lookup _ _ _ Hb), <- Heq.
          change (Z.testbit (index data (i / 8)) (i mod 8)) with (bit data i).
          destruct (Z.ltb_spec i bw) as [Hlo | Hhi].
          * rewrite (Z.testbit_neg_r v') by dlia.
            rewrite !andb_false_r, orb_false_r. reflexivity.
          * rewrite Hpad by lia.
            rewrite !(proj2 (Z.ltb_lt _ _)) by dlia.
            simpl. f_equal. dlia.
        + rewrite (proj2 (Z.ltb_lt i bw)) by dlia. reflexivity.
      - rewrite (proj2 (Z.ltb_ge i bw)) by dlia.
        rewrite Z.shiftr_spec by lia. f_equal. dlia. }
    eexists. split; [reflexivity |]. cbn [w_data bitsWritten].
    split; [| split; [reflexivity | exact Hbits]].
    constructor; cbn [w_data bitsWritten].
    + lia.
    + rewrite write_loop_length, Hlen1 by dlia. unfold ceil8. dlia.
    + apply write_loop_bytes_ok, bytes_ok_insert; assumption.
    + intros i Hi. rewrite Hbits by lia.
      rewrite (proj2 (Z.ltb_ge i bw)) by lia.
      apply (testbit_small v' n); lia.
  - assert (Hal : bw mod 8 = 0) by dlia.
    assert (Hbits : forall i, 0 <= i ->
      bit (write_loop data v' n) i
      = if i <? bw then bit data i else Z.testbit v' (i - bw)).
    { intros i Hi.
      rewrite write_loop_bits by (try rewrite Z.max_l by lia; lia).
      replace (8 * byte_len data) with bw by dlia. reflexivity. }
    eexists. split; [reflexivity |]. cbn [w_data bitsWritten].
    split; [| split; [reflexivity | exact Hbits]].
    constructor; cbn [w_data bitsWritten].
    + lia.
    + rewrite write_loop_length by lia. unfold ceil8. dlia.
    + apply write_loop_bytes_ok; assumption.
    + intros i Hi. rewrite Hbits by lia.
      rewrite (proj2 (Z.ltb_ge i bw)) by lia.
      apply (testbit_small v' n); lia.
Qed.

(** ** Sequences of writes *)

Lemma NewWriter_inv : writer_inv NewWriter.
Proof.
  constructor; simpl; try reflexivity.
  - lia.
  - constructor.
  - intros i Hi. apply bit_beyond. unfold byte_len. simpl. lia.
Qed.

Lemma do_write_unfold (w : Writer) (c : wcall) :
  exists T v, do_write w c = write T w v (wcall_bits c) /\
              wcall_word c = Z.land v (mask T (wcall_bits c)).
Proof.
  destruct c as [[|] | T v n]; cbn [do_write wcall_bits wcall_word].
  - exists U8, 1. split; reflexivity.
  - exists U8, 0. split; reflexivity.
  - exists T, v. split; [destruct T |]; reflexivity.
Qed.

Lemma do_write_spec (w : Writer) (c : wcall) :
  writer_inv w -> 0 <= wcall_bits c <= 127 ->
  bitsWritten w + wcall_bits c < 2 ^ 64 ->
  exists w',
    do_write w c = Some w' /\ writer_inv w' /\
    bitsWritten w' = bitsWritten w + wcall_bits c /\
    forall i, 0 <= i ->
      bit (w_data w') i
      = if i <? bitsWritten w then bit (w_data w) i
        else Z.testbit (wcall_word c) (i - bitsWritten w).
Proof.
  intros Hinv Hn Hfit.
  destruct (do_write_unfold w c) as (T & v & -> & ->).
  destruct (Z.eq_dec (wcall_bits c) 0) as [Hz | Hnz].
  - rewrite Hz. exists w.
    split; [reflexivity |]. split; [assumption |]. split; [lia |].
    intros i Hi. destruct (Z.ltb_spec i (bitsWritten w)); [reflexivity |].
    rewrite (inv_pad w Hinv) by lia.
    symmetry. apply (testbit_small _ 0); [apply masked_range |]; lia.
  - apply write_spec; [assumption | lia | lia].
Qed.

Lemma writes_spec (cs : list wcall) (w : Writer) :
  writer_inv w ->
  Forall (fun c => 0 <= wcall_bits c <= 127) cs ->
  bitsWritten w + total_bits cs < 2 ^ 64 ->
  exists w',
    writes cs w = Some w' /\ writer_inv w' /\
    bitsWritten w' = bitsWritten w + total_bits cs /\
    forall i, 0 <= i < bitsWritten w -> bit (w_data w') i = bit (w_data w) i.
Proof.
  revert w. induction cs as [| c cs IH]; intros w Hinv Hcs Hfit.
  - exists w. simpl.
    split; [reflexivity |]. split; [assumption |]. split; [lia | reflexivity].
  - apply Forall_cons_1 in Hcs. destruct Hcs as [Hc Hcs].
    assert (Hpos : 0 <= total_bits cs).
    { clear -Hcs. induction Hcs; simpl; lia. }
    cbn [total_bits fold_right] in Hfit. fold (total_bits cs) in Hfit.
    destruct (do_write_spec w c Hinv Hc ltac:(lia))
      as (w1 & Hw1 & Hinv1 & Hbw1 & Hbit1).
    destruct (IH w1 Hinv1 Hcs ltac:(lia)) as (w' & Hw' & Hinv' & Hbw' & Hbit').
    exists w'. cbn [writes]. rewrite Hw1.
    split; [assumption |]. split; [assumption |]. split.
    + cbn [total_bits fold_right]. fold (total_bits cs). lia.
    + intros i Hi. rewrite Hbit' by lia. rewrite Hbit1 by lia.
      rewrite (proj2 (Z.ltb_lt _ _)) by lia. reflexivity.
Qed.

(** C8: after any sequence of writes into a fresh Writer, each with a bit
    count within the width of its container (and fewer than 2^64 bits in
    all, so that the cursor does not wrap), every bit of the produced
    sequence at a position from bitsWritten on is zero: the unused high
    bits of the last byte. *)
Theorem trailing_padding_zero (cs : list wcall) :
  Forall wcall_within cs -> total_bits cs < 2 ^ 64 ->
  exists w,
    writes cs NewWriter = Some w /\
    bitsWritten w = total_bits cs /\
    (forall i, bitsWritten w <= i -> bit (Writer_BitData w) i = false) /\
    (forall idx b k,
        Writer_BitData w !! idx = Some b -> 0 <= k < 8 ->
        bitsWritten w <= 8 * Z.of_nat idx + k -> Z.testbit b k = false).
Proof.
  intros Hcs Hfit.
  assert (Hcs' : Forall (fun c => 0 <= wcall_bits c <= 127) cs).
  { eapply Forall_impl; [exact Hcs |]. intros [v | T v n]; simpl; [lia |].
    pose proof (bits_range T). lia. }
  destruct (writes_spec cs NewWriter NewWriter_inv Hcs' Hfit)
    as (w & Hw & Hinv & Hbw & _).
  exists w. split; [assumption |]. split; [exact Hbw |].
  split; [exact (inv_pad w Hinv) |].
  intros idx b k Hb Hk Hpos.
  pose proof (inv_pad w Hinv (8 * Z.of_nat idx + k) Hpos) as Hbit.
  unfold bit in Hbit.
  replace ((8 * Z.of_nat idx + k) / 8) with (Z.of_nat idx) in Hbit by dlia.
  replace ((8 * Z.of_nat idx + k) mod 8) with k in Hbit by dlia.
  unfold index in Hbit. rewrite Nat2Z.id in Hbit.
  unfold Writer_BitData in Hb. rewrite Hb in Hbit. exact Hbit.
Qed.

Lemma trailing_padding_zero_witness :
  let cs := [CallWrite U8 29 5; CallWrite U8 6 4; CallWrite U16 2748 12] in
  Forall wcall_within cs /\ total_bits cs < 2 ^ 64 /\
  exists w,
    writes cs NewWriter = Some w /\ bitsWritten w = 21 /\
    forall i, 21 <= i -> bit (Writer_BitData w) i = false.
Proof.
  intros cs.
  assert (Hcs : Forall wcall_within cs)
    by (repeat constructor; simpl; lia).
  assert (Hfit : total_bits cs < 2 ^ 64) by (vm_compute; reflexivity).
  split; [exact Hcs |]. split; [exact Hfit |].
  destruct (trailing_padding_zero cs Hcs Hfit) as (w & Hw & Hbw & Hpad & _).
  exists w. split; [exact Hw |].
  change (total_bits cs) with 21 in Hbw.
  split; [exact Hbw |]. rewrite <- Hbw. exact Hpad.
Defined.

(** C2: the size law says that after every sequence of writes into a
    fresh Writer the buffer has ceil(bitsWritten / 8) bytes. The code
    breaks it at Write64(1, 128): [write] keeps the remaining bit count in
    an [int8], [int8(128)] is -128, so the loop appends no byte while the
    cursor moves to 128; the buffer has 0 bytes where the law asks for
    16. *)
Theorem size_law_fails_at_128 :
  writes [CallWrite U64 1 128] NewWriter
  = Some {| w_data := []; bitsWritten := 128 |} /\
  byte_len (Writer_BitData {| w_data := []; bitsWritten := 128 |})
  <> ceil8 (total_bits [CallWrite U64 1 128]).
Proof. split; [vm_compute; reflexivity | vm_compute; discriminate]. Qed.

(** X15: where the size law does hold. Starting from NewWriter, after any
    sequence of writes with bit counts of at most 127 each, the counts
    beyond the width of the container included, and fewer than 2^64 bits
    in all, no write panics, bitsWritten is the sum of the bit counts, and
    the buffer that BitData exposes has ceil(bitsWritten / 8) bytes. *)
Theorem size_law (cs : list wcall) :
  Forall (fun c => 0 <= wcall_bits c <= 127) cs ->
  total_bits cs < 2 ^ 64 ->
  exists w,
    writes cs NewWriter = Some w /\
    bitsWritten w = total_bits cs /\
    byte_len (Writer_BitData w) = ceil8 (total_bits cs).
Proof.
  intros Hcs Hfit.
  destruct (writes_spec cs NewWriter NewWriter_inv Hcs Hfit)
    as (w & Hw & Hinv & Hbw & _).
  exists w. split; [assumption |]. split; [exact Hbw |].
  unfold Writer_BitData. rewrite (inv_len w Hinv). f_equal. exact Hbw.
Qed.

Lemma size_law_witness :
  let cs := [CallWrite U8 15 10; CallWrite U64 15 118] in
  Forall (fun c => 0 <= wcall_bits c <= 127) cs /\
  total_bits cs < 2 ^ 64 /\
  exists w, writes cs NewWriter = Some w /\
            byte_len (Writer_BitData w) = 16.
Proof.
  intros cs.
  assert (Hcs : Forall (fun c => 0 <= wcall_bits c <= 127) cs)
    by (repeat constructor; simpl; lia).
  assert (Hfit : total_bits cs < 2 ^ 64) by (vm_compute; reflexivity).
  split; [exact Hcs |]. split; [exact Hfit |].
  destruct (size_law cs Hcs Hfit) as (w & Hw & _ & Hlen).
  exists w. split; [exact Hw | exact Hlen].
Defined.

(** ** The loop of [read] *)

Lemma read_loop_none (T : width) (data : BitData)
    (value idx bitsRead' bitsRemain : Z) :
  0 <= idx -> bitsRemain <= 127 ->
  8 * idx + bitsRemain <= 2 ^ 64 + 127 ->
  read_loop T data value idx bitsRead' bitsRemain = None <->
  0 < bitsRemain /\ 8 * byte_len data < 8 * idx + bitsRemain.
Proof.
  funelim (read_loop T data value idx bitsRead' bitsRemain);
    intros Hidx Hle Hend.
  - fold (byte_len data).
    destruct (Z.geb_spec idx (byte_len data)) as [Hge | Hlt].
    + split; [lia | reflexivity].
    + rewrite int8_small in * by lia.
      assert (Hu : uint (idx + 1) = idx + 1)
        by (apply uint_small; change (2 ^ 64) with 18446744073709551616 in *; lia).
      rewrite Hu in *.
      match goal with IH : _ -> _ -> _ -> _ <-> _ |- _ =>
        rewrite IH by lia end.
      lia.
  - split; [discriminate | lia].
Qed.

Lemma below_pow2 (x n : Z) :
  0 <= n -> 0 <= x -> (forall i, n <= i -> Z.testbit x i = false) ->
  x < 2 ^ n.
Proof.
  intros Hn Hx Hhigh.
  assert (E : x = x mod 2 ^ n).
  { apply Z.bits_inj'. intros i Hi. rewrite testbit_mod_pow2 by lia.
    destruct (Z.ltb_spec i n); [reflexivity | apply Hhigh; lia]. }
  rewrite E. apply Z.mod_pos_bound. apply Z.pow_pos_nonneg; lia.
Qed.

Lemma lor_range (a b n : Z) :
  0 <= n -> 0 <= a < 2 ^ n -> 0 <= b < 2 ^ n -> 0 <= Z.lor a b < 2 ^ n.
Proof.
  intros Hn Ha Hb. split; [apply Z.lor_nonneg; lia |].
  apply below_pow2; [lia | apply Z.lor_nonneg; lia |].
  intros i Hi.
  rewrite Z.lor_spec, (testbit_small a n), (testbit_small b n) by lia.
  reflexivity.
Qed.

Lemma conv_nonneg (T : width) (x : Z) : 0 <= conv T x.
Proof.
  unfold conv. pose proof (bits_range T).
  apply Z.mod_pos_bound. apply Z.pow_pos_nonneg; lia.
Qed.

(** The chunk that an iteration of the loop of [read] adds lies in the
    bits [bitsRead' .. bitsRead' + bitsRemain - 1]. *)
Lemma chunk_range (T : width) (x k m n : Z) :
  0 <= k -> 0 <= m -> k + m <= n ->
  0 <= Z.land x (shl T (mask T m) k) < 2 ^ n.
Proof.
  intros Hk Hm Hn.
  assert (Hnn : 0 <= Z.land x (shl T (mask T m) k))
    by (apply Z.land_nonneg; right; apply conv_nonneg).
  split; [exact Hnn |].
  apply below_pow2; [lia | exact Hnn |].
  intros i Hi. rewrite Z.land_spec, testbit_shl by lia.
  rewrite testbit_mask by lia.
  rewrite (proj2 (Z.ltb_ge (i - k) _)) by lia.
  rewrite !andb_false_r. reflexivity.
Qed.

Lemma read_loop_bound (T : width) (data : BitData)
    (value idx bitsRead' bitsRemain : Z) (n v' : Z) :
  bitsRemain <= 127 -> 0 <= bitsRead' -> bitsRead' + bitsRemain <= n <= 248 ->
  0 <= value < 2 ^ n ->
  read_loop T data value idx bitsRead' bitsRemain = Some v' ->
  0 <= v' < 2 ^ n.
Proof.
  funelim (read_loop T data value idx bitsRead' bitsRemain);
    intros Hle Hk Hn Hv.
  - destruct (_ >=? _); [discriminate |].
    rewrite int8_small in * by lia.
    rewrite (byte_small bitsRemain) in * by lia.
    rewrite (byte_small (bitsRead' + 8)) in * by lia.
    intros Hr.
    match goal with IH : context [_ = Some _ -> _] |- _ =>
      eapply IH; [| | | | exact Hr]; try lia end.
    apply lor_range; [lia | assumption |].
    apply chunk_range; lia.
  - intros [= <-]. assumption.
Qed.

Lemma testbit_index (data : BitData) (idx k : Z) :
  0 <= idx -> 0 <= k < 8 ->
  Z.testbit (index data idx) k = bit data (8 * idx + k).
Proof.
  intros. unfold bit. f_equal; [f_equal |]; dlia.
Qed.

Ltac cmp_cases :=
  repeat match goal with
    | |- context [?a <? ?b] => destruct (Z.ltb_spec a b); try lia
    | |- context [?a <=? ?b] => destruct (Z.leb_spec a b); try lia
    end;
  cbn [andb orb].

Lemma read_loop_bits (T : width) (data : BitData)
    (value idx bitsRead' bitsRemain : Z) (v' : Z) :
  bytes_ok data -> 0 <= idx -> bitsRemain <= 127 -> 0 <= bitsRead' ->
  bitsRead' + bitsRemain <= bits T ->
  8 * idx + bitsRemain <= 2 ^ 64 + 127 ->
  read_loop T data value idx bitsRead' bitsRemain = Some v' ->
  forall i, 0 <= i ->
    Z.testbit v' i
    = Z.testbit value i
      || ((bitsRead' <=? i) && (i <? bitsRead' + bitsRemain)
          && bit data (8 * idx - bitsRead' + i)).
Proof.
  funelim (read_loop T data value idx bitsRead' bitsRemain);
    intros Hok Hidx Hle Hk HT Hend.
  - destruct (_ >=? _); [discriminate |].
    pose proof (bits_range T).
    rewrite int8_small in * by lia.
    rewrite (byte_small bitsRemain) in * by lia.
    rewrite (byte_small (bitsRead' + 8)) in * by lia.
    assert (Hu : uint (idx + 1) = idx + 1)
      by (apply uint_small; change (2 ^ 64) with 18446744073709551616 in *; lia).
    rewrite Hu in *.
    intros Hr i Hi.
    match goal with IH : context [_ = Some _ -> _] |- _ =>
      rewrite (IH v' Hok) by (assumption || lia) end.
    rewrite Z.lor_spec, Z.land_spec, !testbit_shl by lia.
    rewrite <- orb_assoc. f_equal.
    replace (8 * (idx + 1) - (bitsRead' + 8) + i) with (8 * idx - bitsRead' + i)
      by lia.
    destruct (Z_lt_le_dec i bitsRead') as [Hlo | Hhi].
    + rewrite (Z.testbit_neg_r _ (i - bitsRead')) by lia.
      cmp_cases; reflexivity.
    + rewrite testbit_conv, testbit_mask by lia.
      destruct (Z_lt_le_dec (i - bitsRead') 8) as [Hin | Hout].
      * rewrite testbit_index by lia.
        replace (8 * idx + (i - bitsRead')) with (8 * idx - bitsRead' + i) by lia.
        cmp_cases; rewrite ?andb_true_r, ?andb_false_r, ?orb_false_r;
          reflexivity.
      * rewrite (testbit_small (index data idx) 8)
          by (try apply index_range; simpl; (assumption || lia)).
        cmp_cases; reflexivity.
  - intros [= <-] i Hi. cmp_cases; rewrite orb_false_r; reflexivity.
Qed.

(** ** A single [read] *)

Lemma read_spec (T : width) (r : Reader) (n : Z) :
  0 <= bitsRead r < 2 ^ 64 -> 1 <= n <= bits T ->
  (8 * byte_len (r_data r) < bitsRead r + n ->
   read T r n = (r, 0, Some ErrUnexpectedEOF)) /\
  (bitsRead r + n <= 8 * byte_len (r_data r) ->
   exists v,
     read T r n
     = ({| r_data := r_data r; bitsRead := uint (bitsRead r + n) |}, v, None) /\
     0 <= v < 2 ^ n /\
     (bytes_ok (r_data r) ->
      forall i, 0 <= i ->
        Z.testbit v i = (i <? n) && bit (r_data r) (bitsRead r + i))).
Proof.
  destruct r as [data c]. cbn [r_data bitsRead]. intros Hc Hn.
  pose proof (bits_range T) as HT.
  change (2 ^ 64) with 18446744073709551616 in Hc.
  unfold read. cbn [r_data bitsRead].
  rewrite (proj2 (Z.eqb_neq n 0)) by lia.
  rewrite (uint_small n), (int8_small n)
    by (change (2 ^ 64) with 18446744073709551616; lia).
  fold (byte_len data).
  destruct (Z.gtb_spec (c mod 8) 0) as [Hofs | Hofs].
  - rewrite (byte_small (c mod 8)) by dlia.
    rewrite (byte_small (8 - c mod 8)) by dlia.
    rewrite (int8_small (8 - c mod 8)) by dlia.
    rewrite (byte_small (8 - c mod 8)) by dlia.
    rewrite (int8_small (n - _)) by dlia.
    change (0 + (8 - c mod 8)) with (8 - c mod 8).
    rewrite (byte_small (8 - c mod 8)) by dlia.
    rewrite (uint_small (c / 8 + 1))
      by (change (2 ^ 64) with 18446744073709551616; dlia).
    destruct (Z.geb_spec (c / 8) (byte_len data)) as [Hge | Hlt].
    + split; [reflexivity | intros; dlia].
    + set (v0 := Z.land _ (mask T n)).
      pose proof (read_loop_none T data v0 (c / 8 + 1) (8 - c mod 8)
                    (n - (8 - c mod 8)) ltac:(dlia) ltac:(dlia)
                    ltac:(change (2 ^ 64) with 18446744073709551616; dlia))
        as Hnone.
      destruct (read_loop T data v0 (c / 8 + 1) (8 - c mod 8)
                  (n - (8 - c mod 8))) as [v |] eqn:E.
      * split; [intros Hshort; exfalso;
                assert (Some v = None) by (apply Hnone; dlia); discriminate |].
        intros _. exists v. split; [reflexivity |]. split.
        -- apply (read_loop_bound T data v0 (c / 8 + 1) (8 - c mod 8)
                     (n - (8 - c mod 8)) n v); try assumption; try dlia.
           apply masked_range. lia.
        -- intros Hok i Hi.
           rewrite (read_loop_bits T data v0 (c / 8 + 1) (8 - c mod 8)
                      (n - (8 - c mod 8)) v Hok ltac:(dlia) ltac:(dlia)
                      ltac:(dlia) ltac:(dlia)
                      ltac:(change (2 ^ 64) with 18446744073709551616; dlia)
                      E i Hi).
           unfold v0.
           rewrite Z.land_spec, testbit_conv, testbit_mask, Z.shiftr_spec
             by lia.
           rewrite Z.min_l by lia.
           replace (8 * (c / 8 + 1) - (8 - c mod 8) + i) with (c + i) by dlia.
           destruct (Z_lt_le_dec (i + c mod 8) 8) as [Hin | Hout].
           ++ rewrite testbit_index by dlia.
              replace (8 * (c / 8) + (i + c mod 8)) with (c + i) by dlia.
              cmp_cases;
                rewrite ?andb_true_r, ?andb_false_r, ?orb_false_r;
                try reflexivity; dlia.
           ++ rewrite (testbit_small (index data (c / 8)) 8)
                by (try apply index_range; simpl; (assumption || lia)).
              cmp_cases; try reflexivity; dlia.
      * split; [reflexivity |]. intros Hlong. exfalso.
        destruct (proj1 Hnone eq_refl). dlia.
  - assert (Hal : c mod 8 = 0) by dlia.
    pose proof (read_loop_none T data 0 (c / 8) 0 n ltac:(dlia) ltac:(lia)
                  ltac:(change (2 ^ 64) with 18446744073709551616; dlia))
      as Hnone.
    destruct (read_loop T data 0 (c / 8) 0 n) as [v |] eqn:E.
    + split; [intros Hshort; exfalso;
              assert (Some v = None) by (apply Hnone; dlia); discriminate |].
      intros _. exists v. split; [reflexivity |]. split.
      * apply (read_loop_bound T data 0 (c / 8) 0 n n v);
          try assumption; lia.
      * intros Hok i Hi.
        rewrite (read_loop_bits T data 0 (c / 8) 0 n v Hok ltac:(dlia)
                   ltac:(lia) ltac:(lia) ltac:(lia)
                   ltac:(change (2 ^ 64) with 18446744073709551616; dlia)
                   E i Hi).
        rewrite Z.testbit_0_l.
        replace (8 * (c / 8) - 0 + i) with (c + i) by dlia.
        cmp_cases; reflexivity.
    + split; [reflexivity |]. intros Hlong. exfalso.
      destruct (proj1 Hnone eq_refl). dlia.
Qed.

(** ** The exported reads *)

Lemma ReadT_read (T : width) (r : Reader) (n : Z) :
  n <= bits T -> ReadT T r n = read T r n.
Proof.
  intros H. destruct T; simpl in H; cbn [ReadT];
    unfold Read8, Read16, Read32, Read64;
    match goal with |- context [?a >? ?b] =>
      destruct (Z.gtb_spec a b); [lia | reflexivity] end.
Qed.

Lemma do_read_spec (r : Reader) (c : rcall) :
  0 <= bitsRead r < 2 ^ 64 -> 1 <= rcall_bits c <= rcall_width c ->
  (8 * byte_len (r_data r) < bitsRead r + rcall_bits c ->
   do_read r c = (r, zero c, Some ErrUnexpectedEOF)) /\
  (bitsRead r + rcall_bits c <= 8 * byte_len (r_data r) ->
   exists z,
     do_read r c
     = ({| r_data := r_data r;
           bitsRead := uint (bitsRead r + rcall_bits c) |},
        rcall_val c z, None) /\
     0 <= z < 2 ^ rcall_bits c /\
     (bytes_ok (r_data r) ->
      forall i, 0 <= i ->
        Z.testbit z i
        = (i <? rcall_bits c) && bit (r_data r) (bitsRead r + i))).
Proof.
  intros Hc Hn. destruct c as [| T n]; cbn [rcall_bits rcall_width] in *.
  - destruct (read_spec U8 r 1 Hc ltac:(simpl; lia)) as [Hfail Hsucc].
    cbn [do_read zero rcall_val]. unfold ReadBool. split.
    + intros Hshort. rewrite (Hfail Hshort). reflexivity.
    + intros Hlong. destruct (Hsucc Hlong) as (z & -> & Hz & Hbits).
      exists z. auto.
  - destruct (read_spec T r n Hc Hn) as [Hfail Hsucc].
    cbn [do_read zero rcall_val]. rewrite ReadT_read by lia. split.
    + intros Hshort. rewrite (Hfail Hshort). reflexivity.
    + intros Hlong. destruct (Hsucc Hlong) as (z & -> & Hz & Hbits).
      exists z. auto.
Qed.

(** C3: for a Reader over L bytes with cursor c and a read of bitCount
    bits with 1 <= bitCount <= W (ReadBool is the read of 1 bit), the read
    fails with ErrUnexpectedEOF exactly when c + bitCount > 8 * L, and then
    returns the zero value and leaves the Reader, cursor included, as it
    was; when c + bitCount <= 8 * L it succeeds and moves the cursor to
    c + bitCount. *)
Theorem end_of_data_guard (r : Reader) (c : rcall) :
  reader_ok r -> 1 <= rcall_bits c <= rcall_width c ->
  ((do_read r c).2 = Some ErrUnexpectedEOF <->
   bitsRead r + rcall_bits c > 8 * byte_len (r_data r)) /\
  (bitsRead r + rcall_bits c > 8 * byte_len (r_data r) ->
   do_read r c = (r, zero c, Some ErrUnexpectedEOF)) /\
  (bitsRead r + rcall_bits c <= 8 * byte_len (r_data r) ->
   (do_read r c).2 = None /\
   (do_read r c).1.1
   = {| r_data := r_data r; bitsRead := bitsRead r + rcall_bits c |}).
Proof.
  intros [Hc Hbuf] Hn.
  destruct (do_read_spec r c Hc Hn) as [Hfail Hsucc].
  assert (Hs : bitsRead r + rcall_bits c <= 8 * byte_len (r_data r) ->
               (do_read r c).2 = None /\
               (do_read r c).1.1
               = {| r_data := r_data r;
                    bitsRead := bitsRead r + rcall_bits c |}).
  { intros Hlong. destruct (Hsucc Hlong) as (z & -> & _).
    rewrite uint_small by lia. auto. }
  split; [| split; [intros; apply Hfail; lia | exact Hs]].
  split.
  - intros He.
    destruct (Z_le_gt_dec (bitsRead r + rcall_bits c)
                (8 * byte_len (r_data r))) as [Hlong | Hshort];
      [| assumption].
    destruct (Hs Hlong) as [Hnone _]. congruence.
  - intros Hshort. rewrite Hfail by lia. reflexivity.
Qed.

Lemma end_of_data_guard_witness :
  let r := {| r_data := [255; 127]; bitsRead := 10 |} in
  reader_ok r /\
  do_read r (CallRead U8 7) = (r, VInt 0, Some ErrUnexpectedEOF) /\
  (do_read r (CallRead U16 6)).1.1 = {| r_data := [255; 127]; bitsRead := 16 |}.
Proof.
  intros r.
  assert (Hok : reader_ok r) by (constructor; vm_compute; split; congruence).
  split; [exact Hok |]. split.
  - apply (end_of_data_guard r (CallRead U8 7) Hok); vm_compute;
      [split; discriminate | reflexivity].
  - apply (end_of_data_guard r (CallRead U16 6) Hok); vm_compute;
      [split; discriminate | discriminate].
Defined.

(** ** The cursor of a Reader *)

Lemma uint_range (x : Z) : 0 <= uint x < 2 ^ 64.
Proof. unfold uint. apply Z.mod_pos_bound. reflexivity. Qed.

Lemma uint_le (x : Z) : 0 <= x -> uint x <= x.
Proof. intros. unfold uint. apply Z.mod_le; [assumption | reflexivity]. Qed.

(** A read leaves the Reader as it was or moves its cursor; the buffer is
    never touched. *)
Lemma read_reader (T : width) (r : Reader) (n : Z) :
  (read T r n).1.1 = r \/
  (read T r n).1.1
  = {| r_data := r_data r; bitsRead := uint (bitsRead r + uint n) |}.
Proof.
  unfold read. destruct (n =? 0); [left; reflexivity |].
  destruct (bitsRead r mod 8 >? 0).
  - destruct (_ >=? _); [left; reflexivity |].
    destruct (read_loop _ _ _ _ _ _); [right | left]; reflexivity.
  - destruct (read_loop _ _ _ _ _ _); [right | left]; reflexivity.
Qed.

Lemma do_read_reader (r : Reader) (c : rcall) :
  r_data (do_read r c).1.1 = r_data r /\
  (0 <= bitsRead r < 2 ^ 64 -> 0 <= bitsRead (do_read r c).1.1 < 2 ^ 64).
Proof.
  assert (G : forall T n,
             r_data (read T r n).1.1 = r_data r /\
             (0 <= bitsRead r < 2 ^ 64 ->
              0 <= bitsRead (read T r n).1.1 < 2 ^ 64)).
  { intros T n. destruct (read_reader T r n) as [-> | ->]; cbn; split;
      auto using uint_range. }
  destruct c as [| T n]; cbn [do_read].
  - unfold ReadBool. specialize (G U8 1).
    destruct (read U8 r 1) as [[r1 v1] [e1 |]]; exact G.
  - destruct (Z_le_gt_dec n (bits T)) as [Hle | Hgt].
    + rewrite ReadT_read by lia. specialize (G T n).
      destruct (read T r n) as [[r1 v1] e1]. exact G.
    + rewrite ReadT_too_big by lia. cbn. auto.
Qed.

Lemma steps_reader (os : list rop) (r : Reader) :
  0 <= bitsRead r < 2 ^ 64 ->
  r_data (steps os r) = r_data r /\ 0 <= bitsRead (steps os r) < 2 ^ 64.
Proof.
  revert r. induction os as [| o os IH]; intros r Hc; [auto |].
  cbn [steps fold_left]. fold (steps os (step r o)).
  assert (H1 : r_data (step r o) = r_data r /\
               0 <= bitsRead (step r o) < 2 ^ 64).
  { destruct o as [c | n]; cbn [step].
    - destruct (do_read_reader r c); auto.
    - cbn. auto using uint_range. }
  destruct H1 as [Hd Hc']. destruct (IH _ Hc') as [Hd' Hc''].
  rewrite Hd', Hd. auto.
Qed.

(** After a [Skip] past the end, a successful read of 0 bits leaves the
    cursor beyond the bit length of the buffer. *)
Lemma cursor_bound_fails_at_zero_width :
  do_read (steps [OpSkip 1] (NewReader [])) (CallRead U8 0)
  = ({| r_data := []; bitsRead := 1 |}, VInt 0, None) /\
  ~ bitsRead {| r_data := []; bitsRead := 1 |} <= 8 * byte_len [].
Proof. split; [vm_compute; reflexivity | vm_compute; congruence]. Qed.

(** C7 (amended): for a Reader created over a buffer of L bytes and any
    sequence of Skips and reads, whenever a following read of at least one
    bit returns success, the cursor afterwards is at most 8 * L; a read of
    0 bits succeeds and leaves the cursor where it is, also beyond the end
    when a Skip has put it there. *)
Theorem cursor_bound (data : BitData) (os : list rop) (c : rcall) :
  let r := steps os (NewReader data) in
  (1 <= rcall_bits c -> (do_read r c).2 = None ->
   bitsRead (do_read r c).1.1 <= 8 * byte_len data) /\
  (rcall_bits c = 0 ->
   (do_read r c).2 = None /\ bitsRead (do_read r c).1.1 = bitsRead r).
Proof.
  intros r.
  destruct (steps_reader os (NewReader data) ltac:(simpl; lia)) as [Hd Hc].
  fold r in Hd, Hc. cbn [NewReader r_data] in Hd. split.
  - intros Hn Hsucc.
    destruct (Z_le_gt_dec (rcall_bits c) (rcall_width c)) as [Hle | Hgt].
    + destruct (do_read_spec r c Hc ltac:(lia)) as [Hfail Hsucc'].
      rewrite Hd in *.
      destruct (Z_le_gt_dec (bitsRead r + rcall_bits c) (8 * byte_len data))
        as [Hlong | Hshort].
      * destruct (Hsucc' Hlong) as (z & -> & _). cbn.
        pose proof (uint_le (bitsRead r + rcall_bits c)). lia.
      * rewrite Hfail in Hsucc by lia. discriminate.
    + destruct c as [| T n]; cbn [rcall_bits rcall_width] in *; [lia |].
      cbn [do_read] in Hsucc.
      rewrite ReadT_too_big in Hsucc by lia. discriminate.
  - intros Hz. destruct c as [| T n]; cbn [rcall_bits] in Hz; [lia |].
    subst n. cbn [do_read]. rewrite ReadT_zero. auto.
Qed.

Lemma cursor_bound_witness :
  let os := [OpSkip 3; OpCall (CallRead U8 9); OpCall (CallRead U16 4)] in
  bitsRead (do_read (steps os (NewReader [221; 120])) (CallRead U8 8)).1.1
  <= 8 * byte_len [221; 120].
Proof.
  intros os.
  apply (cursor_bound [221; 120] os (CallRead U8 8)).
  - simpl. lia.
  - vm_compute. reflexivity.
Defined.

(** C10: whatever the buffer holds and wherever the cursor is, a read of
    bitCount bits, 0 <= bitCount <= W, that succeeds returns a value below
    2^bitCount: all its bits from position bitCount on are zero. *)
Theorem read_result_masked (T : width) (r r' : Reader) (bitCount v : Z) :
  0 <= bitsRead r < 2 ^ 64 -> 0 <= bitCount <= bits T ->
  ReadT T r bitCount = (r', v, None) ->
  0 <= v < 2 ^ bitCount /\
  (forall i, bitCount <= i -> Z.testbit v i = false).
Proof.
  intros Hc Hn Hr.
  assert (Hv : 0 <= v < 2 ^ bitCount).
  { destruct (Z.eq_dec bitCount 0) as [-> | Hnz].
    - rewrite ReadT_zero in Hr. injection Hr as <- <-. simpl. lia.
    - rewrite ReadT_read in Hr by lia.
      destruct (read_spec T r bitCount Hc ltac:(lia)) as [Hfail Hsucc].
      destruct (Z_le_gt_dec (bitsRead r + bitCount)
                  (8 * byte_len (r_data r))) as [Hlong | Hshort].
      + destruct (Hsucc Hlong) as (z & E & Hz & _).
        rewrite E in Hr. injection Hr as <- <-. exact Hz.
      + rewrite Hfail in Hr by lia. discriminate. }
  split; [exact Hv |].
  intros i Hi. apply (testbit_small v bitCount); lia.
Qed.

Lemma read_result_masked_witness :
  let r := {| r_data := [255; 254; 255]; bitsRead := 7 |} in
  ReadT U16 r 3 = ({| r_data := [255; 254; 255]; bitsRead := 10 |}, 5, None) /\
  0 <= 5 < 2 ^ 3.
Proof.
  intros r.
  assert (E : ReadT U16 r 3
              = ({| r_data := [255; 254; 255]; bitsRead := 10 |}, 5, None))
    by (vm_compute; reflexivity).
  split; [exact E |].
  apply (read_result_masked U16 r {| r_data := [255; 254; 255]; bitsRead := 10 |}
           3 5); [simpl; lia | simpl; lia | exact E].
Defined.

(** ** Round trip *)

Lemma wcall_masked_bits (c : wcall) :
  wcall_masked c ->
  1 <= wcall_bits c <= 64 /\
  rcall_bits (read_back c) = wcall_bits c /\
  1 <= wcall_bits c <= rcall_width (read_back c) /\
  0 <= wcall_word c < 2 ^ wcall_bits c /\
  rcall_val (read_back c) (wcall_word c) = wcall_val c.
Proof.
  destruct c as [[|] | T v n]; cbn [wcall_masked wcall_bits read_back
    rcall_bits rcall_width wcall_word rcall_val wcall_val].
  - intros _. vm_compute. repeat split; congruence.
  - intros _. vm_compute. repeat split; congruence.
  - intros [Hn Hv]. pose proof (bits_range T).
    assert (E : Z.land v (mask T n) = v).
    { rewrite land_mask, Z.min_l by lia. apply Z.mod_small. assumption. }
    rewrite E. repeat split; try lia.
Qed.

Lemma total_bits_cons (c : wcall) (cs : list wcall) :
  total_bits (c :: cs) = wcall_bits c + total_bits cs.
Proof. reflexivity. Qed.

Lemma total_bits_nonneg (cs : list wcall) :
  Forall wcall_masked cs -> 0 <= total_bits cs.
Proof.
  induction 1 as [| c cs Hc _ IH]; [reflexivity |].
  rewrite total_bits_cons. pose proof (wcall_masked_bits c Hc). lia.
Qed.

Lemma masked_within_127 (cs : list wcall) :
  Forall wcall_masked cs -> Forall (fun c => 0 <= wcall_bits c <= 127) cs.
Proof.
  intros H. eapply Forall_impl; [exact H |].
  intros c Hc. pose proof (wcall_masked_bits c Hc). lia.
Qed.

(** Reading back, from the cursor of a Writer, what a sequence of calls
    went on to write, over any buffer that has these bits. *)
Lemma round_trip_from (cs : list wcall) (w w' : Writer) (data : BitData) :
  writer_inv w -> Forall wcall_masked cs ->
  bitsWritten w + total_bits cs < 2 ^ 64 ->
  writes cs w = Some w' ->
  bytes_ok data ->
  bitsWritten w' <= 8 * byte_len data ->
  (forall i, bitsWritten w <= i < bitsWritten w' ->
             bit data i = bit (w_data w') i) ->
  reads (map read_back cs) {| r_data := data; bitsRead := bitsWritten w |}
  = ({| r_data := data; bitsRead := bitsWritten w' |},
     map (fun c => (wcall_val c, None)) cs).
Proof.
  revert w. induction cs as [| c cs IH];
    intros w Hinv Hcs Hfit Hw Hok Hlen Hbits.
  - injection Hw as <-. reflexivity.
  - apply Forall_cons_1 in Hcs. destruct Hcs as [Hc Hcs].
    rewrite total_bits_cons in Hfit.
    pose proof (total_bits_nonneg cs Hcs) as Hpos.
    destruct (wcall_masked_bits c Hc) as (Hn & Hrb & Hrw & Hword & Hval).
    destruct (do_write_spec w c Hinv ltac:(lia) ltac:(lia))
      as (w1 & Hw1 & Hinv1 & Hbw1 & Hbit1).
    cbn [writes] in Hw. rewrite Hw1 in Hw.
    destruct (writes_spec cs w1 Hinv1 (masked_within_127 cs Hcs) ltac:(lia))
      as (w2 & Hw2 & Hinv2 & Hbw2 & Hpre).
    assert (w2 = w') by congruence. subst w2.
    pose proof (inv_cursor w Hinv) as Hcur.
    set (r := {| r_data := data; bitsRead := bitsWritten w |}).
    destruct (do_read_spec r (read_back c) Hcur ltac:(rewrite Hrb; exact Hrw))
      as [_ Hsucc].
    rewrite Hrb in Hsucc. cbn [r r_data bitsRead] in Hsucc.
    destruct (Hsucc ltac:(lia)) as (z & Hr & Hz & Hzbits).
    assert (Ez : z = wcall_word c).
    { apply Z.bits_inj'. intros i Hi. rewrite (Hzbits Hok i Hi).
      destruct (Z.ltb_spec i (wcall_bits c)) as [Hin | Hout]; cbn [andb].
      - rewrite Hbits by lia. rewrite Hpre by lia. rewrite Hbit1 by lia.
        rewrite (proj2 (Z.ltb_ge _ _)) by lia. f_equal. lia.
      - symmetry. apply (testbit_small _ (wcall_bits c)); lia. }
    subst z. rewrite Hval in Hr.
    cbn [map reads]. fold r. rewrite Hr.
    rewrite uint_small by lia. rewrite <- Hbw1.
    rewrite (IH w1 Hinv1 Hcs ltac:(lia) Hw Hok Hlen
               ltac:(intros i Hi; apply Hbits; lia)).
    reflexivity.
Qed.

(** C1: for every sequence of calls WriteBool(v) and WriteW(v, n) with
    W in 8, 16, 32, 64, 1 <= n <= W and v already masked to its low n bits
    (fewer than 2^64 bits in all, so that the cursor does not wrap),
    writing them in order into a fresh Writer succeeds, and reading them
    back in the same order, with the matching reads and the same bit
    counts, from a Reader over the bytes produced returns exactly the
    original values, each without error. *)
Theorem round_trip (cs : list wcall) :
  Forall wcall_masked cs -> total_bits cs < 2 ^ 64 ->
  exists w,
    writes cs NewWriter = Some w /\
    (reads (map read_back cs) (NewReader (Writer_BitData w))).2
    = map (fun c => (wcall_val c, None)) cs.
Proof.
  intros Hcs Hfit.
  destruct (writes_spec cs NewWriter NewWriter_inv
              (masked_within_127 cs Hcs) Hfit)
    as (w & Hw & Hinv & Hbw & _).
  exists w. split; [exact Hw |].
  unfold NewReader, Writer_BitData.
  change 0 with (bitsWritten NewWriter) at 1.
  rewrite (round_trip_from cs NewWriter w (w_data w) NewWriter_inv Hcs Hfit Hw
             (inv_bytes w Hinv)); [reflexivity | | reflexivity].
  rewrite (inv_len w Hinv). unfold ceil8. dlia.
Qed.

Lemma round_trip_witness :
  let cs := [CallWrite U8 29 5; CallWriteBool true; CallWrite U16 2748 12;
             CallWrite U64 16045690984229469933 64; CallWrite U32 1 32] in
  Forall wcall_masked cs /\ total_bits cs < 2 ^ 64 /\
  exists w,
    writes cs NewWriter = Some w /\
    (reads (map read_back cs) (NewReader (Writer_BitData w))).2
    = [(VInt 29, None); (VBool true, None); (VInt 2748, None);
       (VInt 16045690984229469933, None); (VInt 1, None)].
Proof.
  intros cs.
  assert (Hcs : Forall wcall_masked cs)
    by (repeat constructor; vm_compute; congruence).
  assert (Hfit : total_bits cs < 2 ^ 64) by (vm_compute; reflexivity).
  split; [exact Hcs |]. split; [exact Hfit |].
  exact (round_trip cs Hcs Hfit).
Defined.

(** * Further properties of the engine *)

(** ** Bytes from bits *)

Lemma byte_of_bits (d d' : BitData) (k : nat) (b b' : Z) :
  bytes_ok d -> bytes_ok d' ->
  d !! k = Some b -> d' !! k = Some b' ->
  (forall j, 0 <= j < 8 ->
     bit d (8 * Z.of_nat k + j) = bit d' (8 * Z.of_nat k + j)) ->
  b = b'.
Proof.
  intros Hok Hok' Hb Hb' Hbits.
  assert (Hi : index d (Z.of_nat k) = b)
    by (apply index_lookup; rewrite Nat2Z.id; exact Hb).
  assert (Hi' : index d' (Z.of_nat k) = b')
    by (apply index_lookup; rewrite Nat2Z.id; exact Hb').
  pose proof (index_range d (Z.of_nat k) Hok) as Hr.
  pose proof (index_range d' (Z.of_nat k) Hok') as Hr'.
  rewrite Hi in Hr. rewrite Hi' in Hr'.
  apply Z.bits_inj'. intros j Hj.
  destruct (Z_lt_le_dec j 8) as [Hin | Hout].
  - rewrite <- Hi, <- Hi', !testbit_index by lia. apply Hbits. lia.
  - rewrite (testbit_small b 8), (testbit_small b' 8) by (simpl; lia).
    reflexivity.
Qed.

(** Two buffers of the same length with the same bits are the same. *)
Lemma data_ext (d d' : BitData) :
  bytes_ok d -> bytes_ok d' -> byte_len d = byte_len d' ->
  (forall i, 0 <= i -> bit d i = bit d' i) -> d = d'.
Proof.
  intros Hok Hok' Hlen Hbits. unfold byte_len in Hlen.
  apply list_eq. intros k.
  destruct (d !! k) as [b |] eqn:E.
  - destruct (lookup_lt_is_Some_2 d' k) as [b' E'].
    { apply lookup_lt_Some in E. lia. }
    rewrite E'. f_equal.
    apply (byte_of_bits d d' k); try assumption.
    intros j Hj. apply Hbits. lia.
  - symmetry. apply lookup_ge_None_2. apply lookup_ge_None_1 in E. lia.
Qed.

Lemma testbit_masked (T : width) (v n j : Z) :
  0 <= n -> 0 <= j ->
  Z.testbit (Z.land v (mask T n)) j
  = Z.testbit v j && (j <? Z.min n (bits T)).
Proof.
  intros. rewrite Z.land_spec, testbit_mask by lia. reflexivity.
Qed.

Lemma WriteT_write (T : width) (w : Writer) (v n : Z) :
  WriteT T w v n = write T w v n.
Proof. destruct T; reflexivity. Qed.

(** ** What a write puts on the wire *)

(** X1: a write looks only at the low bitCount bits of its value: two
    values that agree on them leave the same Writer. *)
Theorem write_discards_high_bits (T : width) (w : Writer) (v v' n : Z) :
  0 <= n <= bits T -> v mod 2 ^ n = v' mod 2 ^ n ->
  WriteT T w v n = WriteT T w v' n.
Proof.
  intros Hn Hv. rewrite !WriteT_write. unfold write.
  rewrite !land_mask, Z.min_l, Hv by lia. reflexivity.
Qed.

Lemma write_discards_high_bits_witness :
  Write8 {| w_data := [5]; bitsWritten := 3 |} 255 4
  = Write8 {| w_data := [5]; bitsWritten := 3 |} 15 4.
Proof.
  apply (write_discards_high_bits U8 {| w_data := [5]; bitsWritten := 3 |}
           255 15 4); [simpl; lia | reflexivity].
Defined.

(** X2: a write of n bits, 1 <= n <= 127, into a Writer whose buffer and
    cursor are in step moves the cursor by n, leaves every bit below the
    old cursor and every byte that was complete as they were, and puts bit
    j of the value at position cursor + j, least significant first; bits
    of the count beyond the width of the container are zero. *)
Theorem write_layout (T : width) (w : Writer) (v n : Z) :
  writer_inv w -> 1 <= n <= 127 -> bitsWritten w + n < 2 ^ 64 ->
  exists w',
    WriteT T w v n = Some w' /\
    bitsWritten w' = bitsWritten w + n /\
    (forall i, 0 <= i < bitsWritten w ->
       bit (w_data w') i = bit (w_data w) i) /\
    (forall j, 0 <= j < n ->
       bit (w_data w') (bitsWritten w + j)
       = Z.testbit v j && (j <? bits T)) /\
    (forall k b, 8 * (Z.of_nat k + 1) <= bitsWritten w ->
       w_data w !! k = Some b -> w_data w' !! k = Some b).
Proof.
  intros Hinv Hn Hfit. rewrite WriteT_write.
  destruct (write_spec T w v n Hinv Hn Hfit) as (w' & Hw & Hinv' & Hbw & Hbit).
  exists w'. split; [exact Hw |]. split; [exact Hbw |].
  assert (Hpre : forall i, 0 <= i < bitsWritten w ->
                   bit (w_data w') i = bit (w_data w) i).
  { intros i Hi. rewrite Hbit by lia.
    rewrite (proj2 (Z.ltb_lt _ _)) by lia. reflexivity. }
  split; [exact Hpre |]. split.
  - intros j Hj. pose proof (inv_cursor w Hinv). rewrite Hbit by lia.
    rewrite (proj2 (Z.ltb_ge _ _)) by lia.
    replace (bitsWritten w + j - bitsWritten w) with j by lia.
    rewrite testbit_masked by lia. pose proof (bits_range T).
    f_equal. destruct (Z.ltb_spec j (Z.min n (bits T)));
      destruct (Z.ltb_spec j (bits T)); try reflexivity; lia.
  - intros k b Hk Hb.
    destruct (lookup_lt_is_Some_2 (w_data w') k) as [b' Hb'].
    { apply lookup_lt_Some in Hb.
      pose proof (inv_len w Hinv) as Hl. pose proof (inv_len w' Hinv') as Hl'.
      unfold byte_len, ceil8 in Hl, Hl'. rewrite Hbw in Hl'.
      assert (Z.of_nat (length (w_data w)) <= Z.of_nat (length (w_data w')))
        by dlia.
      lia. }
    rewrite Hb'. f_equal. symmetry.
    apply (byte_of_bits (w_data w) (w_data w') k);
      try assumption; try apply inv_bytes; try assumption.
    intros j Hj. symmetry. apply Hpre. lia.
Qed.

Lemma write_layout_witness :
  let w := {| w_data := [221; 0]; bitsWritten := 9 |} in
  writer_inv w /\
  exists w', Write16 w 2748 12 = Some w' /\ bitsWritten w' = 21 /\
             w_data w' !! 0%nat = Some 221.
Proof.
  intros w.
  assert (Hinv : writer_inv w).
  { constructor; cbn [w w_data bitsWritten].
    - lia.
    - reflexivity.
    - repeat constructor; lia.
    - intros i Hi. destruct (Z_lt_le_dec i 16).
      + assert (Hc : i = 9 \/ i = 10 \/ i = 11 \/ i = 12 \/ i = 13 \/
                     i = 14 \/ i = 15) by lia.
        destruct Hc as [-> | [-> | [-> | [-> | [-> | [-> | ->]]]]]];
          reflexivity.
      + apply bit_beyond. unfold byte_len. simpl. lia. }
  split; [exact Hinv |].
  destruct (write_layout U16 w 2748 12 Hinv ltac:(lia) ltac:(simpl; lia))
    as (w' & Hw & Hbw & _ & _ & Hbytes).
  exists w'. split; [exact Hw |]. split; [exact Hbw |].
  apply Hbytes; [simpl; lia | reflexivity].
Defined.

Lemma byte_shl (T : width) (x k : Z) : byte (shl T x k) = byte (Z.shiftl x k).
Proof.
  apply Z.bits_inj'. intros i Hi. pose proof (bits_range T).
  rewrite !testbit_byte, testbit_shl, Z.shiftl_spec by lia.
  destruct (Z.ltb_spec i 8); [| reflexivity].
  rewrite (proj2 (Z.ltb_lt i (bits T))) by lia. reflexivity.
Qed.

(** X3: the container of a write does not show on the wire: for a bit
    count within both widths, the writes of two containers leave the same
    Writer. *)
Theorem write_width_agnostic (T1 T2 : width) (w : Writer) (v n : Z) :
  0 <= n <= bits T1 -> n <= bits T2 ->
  WriteT T1 w v n = WriteT T2 w v n.
Proof.
  intros H1 H2. rewrite !WriteT_write. unfold write.
  rewrite !land_mask, !Z.min_l, !byte_shl by lia. reflexivity.
Qed.

Lemma write_width_agnostic_witness :
  Write8 {| w_data := [29]; bitsWritten := 5 |} 6 4
  = Write64 {| w_data := [29]; bitsWritten := 5 |} 6 4.
Proof.
  apply (write_width_agnostic U8 U64 {| w_data := [29]; bitsWritten := 5 |}
           6 4); simpl; lia.
Defined.

Lemma writer_eq (w w' : Writer) :
  writer_inv w -> writer_inv w' -> bitsWritten w = bitsWritten w' ->
  (forall i, 0 <= i -> bit (w_data w) i = bit (w_data w') i) -> w = w'.
Proof.
  intros Hinv Hinv' Hbw Hbits.
  assert (Hd : w_data w = w_data w').
  { apply data_ext; try apply inv_bytes; try assumption.
    rewrite (inv_len w Hinv), (inv_len w' Hinv'), Hbw. reflexivity. }
  destruct w, w'. simpl in *. congruence.
Qed.

(** X4: the stream is a plain concatenation of bits: writing the low n1
    bits of a value and then its next n2 bits leaves the same Writer as
    writing its low n1 + n2 bits at once. *)
Theorem write_chunking (T T1 T2 : width) (w : Writer) (v n1 n2 : Z) :
  writer_inv w -> 1 <= n1 <= bits T1 -> 1 <= n2 <= bits T2 ->
  n1 + n2 <= bits T -> bitsWritten w + n1 + n2 < 2 ^ 64 ->
  match WriteT T1 w v n1 with
  | Some w1 => WriteT T2 w1 (Z.shiftr v n1) n2
  | None => None
  end = WriteT T w v (n1 + n2) /\
  WriteT T w v (n1 + n2) <> None.
Proof.
  intros Hinv H1 H2 Hn Hfit. rewrite !WriteT_write.
  pose proof (bits_range T). pose proof (bits_range T1).
  pose proof (bits_range T2). pose proof (inv_cursor w Hinv).
  destruct (write_spec T1 w v n1 Hinv ltac:(lia) ltac:(lia))
    as (w1 & -> & Hinv1 & Hbw1 & Hbit1).
  rewrite WriteT_write.
  destruct (write_spec T2 w1 (Z.shiftr v n1) n2 Hinv1 ltac:(lia) ltac:(lia))
    as (w2 & -> & Hinv2 & Hbw2 & Hbit2).
  destruct (write_spec T w v (n1 + n2) Hinv ltac:(lia) ltac:(lia))
    as (w' & -> & Hinv' & Hbw' & Hbit').
  split; [| discriminate]. f_equal.
  apply writer_eq; try assumption; [lia |].
  intros i Hi. rewrite Hbit2, Hbit', Hbw1 by lia.
  destruct (Z.ltb_spec i (bitsWritten w + n1)) as [Hlo | Hhi].
  - rewrite Hbit1 by lia.
    destruct (Z.ltb_spec i (bitsWritten w)); [reflexivity |].
    rewrite !testbit_masked by lia.
    rewrite !(proj2 (Z.ltb_lt _ _)) by lia. reflexivity.
  - rewrite (proj2 (Z.ltb_ge i (bitsWritten w))) by lia.
    rewrite !testbit_masked, Z.shiftr_spec by lia.
    rewrite !Z.min_l by lia.
    replace (i - (bitsWritten w + n1) + n1) with (i - bitsWritten w) by lia.
    f_equal.
    destruct (Z.ltb_spec (i - (bitsWritten w + n1)) n2);
      destruct (Z.ltb_spec (i - bitsWritten w) (n1 + n2));
      try reflexivity; lia.
Qed.

Lemma write_chunking_witness :
  match Write8 NewWriter 2748 5 with
  | Some w1 => Write8 w1 (Z.shiftr 2748 5) 7
  | None => None
  end = Write16 NewWriter 2748 12.
Proof.
  apply (write_chunking U16 U8 U8 NewWriter 2748 5 7 NewWriter_inv);
    simpl; lia.
Defined.

(** ** Bit counts beyond the contract *)

(** X6: for a bit count of the width of the container or more, [mask] is
    the maximal value of the type, so a write masks nothing off a value of
    the type. *)
Theorem mask_saturates (T : width) (n v : Z) :
  bits T <= n ->
  mask T n = 2 ^ bits T - 1 /\
  (0 <= v < 2 ^ bits T -> Z.land v (mask T n) = v).
Proof.
  intros Hn. pose proof (bits_range T). split.
  - rewrite mask_value, Z.min_r by lia. reflexivity.
  - intros Hv. rewrite land_mask, Z.min_r by lia.
    apply Z.mod_small. exact Hv.
Qed.

Lemma mask_saturates_witness :
  mask U8 200 = 2 ^ bits U8 - 1 /\
  (0 <= 77 < 2 ^ bits U8 -> Z.land 77 (mask U8 200) = 77).
Proof. apply (mask_saturates U8 200 77). simpl. lia. Defined.

Lemma write_loop_done (data : BitData) (value bitsRemain : Z) :
  bitsRemain <= 0 -> write_loop data value bitsRemain = data.
Proof.
  intros H. funelim (write_loop data value bitsRemain); [lia | reflexivity].
Qed.

(** X5: the remaining bit count of [write] is an [int8]. A write of 128
    to 255 bits at a byte-aligned cursor therefore appends nothing and
    still moves the cursor; when the count is no multiple of 8, the cursor
    then points into a byte that does not exist, and every later write of
    at least one bit panics. *)
Theorem wide_write_overflow (T : width) (w : Writer) (v n : Z) :
  writer_inv w -> bitsWritten w mod 8 = 0 -> 128 <= n <= 255 ->
  bitsWritten w + n < 2 ^ 64 ->
  let w' := {| w_data := w_data w; bitsWritten := bitsWritten w + n |} in
  WriteT T w v n = Some w' /\
  (n mod 8 <> 0 ->
   forall T' v' n', n' <> 0 -> WriteT T' w' v' n' = None).
Proof.
  intros Hinv Hal Hn Hfit w'. pose proof (inv_cursor w Hinv) as Hc.
  split.
  - rewrite WriteT_write. unfold write.
    rewrite (proj2 (Z.eqb_neq n 0)) by lia. rewrite Hal. cbn [Z.gtb Z.compare].
    assert (Hi : int8 n = n - 256) by (unfold int8; dlia).
    rewrite Hi, write_loop_done by lia.
    rewrite (uint_small n), uint_small by lia. reflexivity.
  - intros Hodd T' v' n' Hn'. rewrite WriteT_write. unfold write.
    rewrite (proj2 (Z.eqb_neq n' 0)) by lia. cbn [w' w_data bitsWritten].
    rewrite (proj2 (Z.gtb_lt _ _)) by dlia.
    rewrite lookup_ge_None_2; [reflexivity |].
    pose proof (inv_len w Hinv) as Hl. unfold byte_len, ceil8 in Hl.
    assert (Z.of_nat (length (w_data w)) <= (bitsWritten w + n) / 8) by dlia.
    lia.
Qed.

Lemma wide_write_overflow_witness :
  Write64 NewWriter 1 130 = Some {| w_data := []; bitsWritten := 130 |} /\
  Write8 {| w_data := []; bitsWritten := 130 |} 1 1 = None.
Proof.
  destruct (wide_write_overflow U64 NewWriter 1 130 NewWriter_inv)
    as [H1 H2]; [reflexivity | lia | simpl; lia |].
  split; [exact H1 |].
  apply (H2 ltac:(vm_compute; discriminate) U8 1 1). lia.
Defined.

(** ** What a read takes off the wire *)

Lemma ReadT_spec (T : width) (r : Reader) (n : Z) :
  0 <= bitsRead r < 2 ^ 64 -> 0 <= n <= bits T ->
  (8 * byte_len (r_data r) < bitsRead r + n /\ n <> 0 /\
   ReadT T r n = (r, 0, Some ErrUnexpectedEOF)) \/
  (exists z,
     ReadT T r n
     = ({| r_data := r_data r; bitsRead := uint (bitsRead r + n) |}, z, None) /\
     (n = 0 \/ bitsRead r + n <= 8 * byte_len (r_data r)) /\
     0 <= z < 2 ^ n /\
     (bytes_ok (r_data r) ->
      forall i, 0 <= i ->
        Z.testbit z i = (i <? n) && bit (r_data r) (bitsRead r + i))).
Proof.
  intros Hc Hn. destruct (Z.eq_dec n 0) as [-> | Hnz].
  - right. exists 0. rewrite ReadT_zero, Z.add_0_r, uint_small by lia.
    destruct r. cbn. split; [reflexivity |]. split; [auto |].
    split; [lia |]. intros _ i Hi. rewrite Z.testbit_0_l.
    rewrite (proj2 (Z.ltb_ge _ _)) by lia. reflexivity.
  - rewrite ReadT_read by lia.
    destruct (read_spec T r n Hc ltac:(lia)) as [Hfail Hsucc].
    destruct (Z_le_gt_dec (bitsRead r + n) (8 * byte_len (r_data r)))
      as [Hlong | Hshort].
    + right. destruct (Hsucc Hlong) as (z & E & Hz & Hbits).
      exists z. auto.
    + left. split; [lia |]. split; [exact Hnz |]. apply Hfail. lia.
Qed.

(** X7: a successful read of n bits returns the n bits of the buffer that
    start at the cursor, the one at the cursor as the least significant:
    bit i of the value is bit cursor + i of the buffer for i < n, and 0
    above. *)
Theorem read_value_bits (T : width) (r r' : Reader) (n v : Z) :
  bytes_ok (r_data r) -> 0 <= bitsRead r < 2 ^ 64 -> 0 <= n <= bits T ->
  ReadT T r n = (r', v, None) ->
  forall i, 0 <= i ->
    Z.testbit v i = (i <? n) && bit (r_data r) (bitsRead r + i).
Proof.
  intros Hok Hc Hn Hr.
  destruct (ReadT_spec T r n Hc Hn) as [(_ & _ & E) | (z & E & _ & _ & Hbits)];
    rewrite E in Hr; [discriminate |].
  injection Hr as <- <-. exact (Hbits Hok).
Qed.

Lemma read_value_bits_witness :
  let r := {| r_data := [221; 120; 21]; bitsRead := 9 |} in
  ReadT U16 r 12
  = ({| r_data := [221; 120; 21]; bitsRead := 21 |}, 2748, None) /\
  Z.testbit 2748 2 = (2 <? 12) && bit [221; 120; 21] (9 + 2).
Proof.
  intros r.
  assert (E : ReadT U16 r 12
              = ({| r_data := [221; 120; 21]; bitsRead := 21 |}, 2748, None))
    by (vm_compute; reflexivity).
  split; [exact E |].
  apply (read_value_bits U16 r
           {| r_data := [221; 120; 21]; bitsRead := 21 |} 12 2748);
    [repeat constructor; lia | simpl; lia | simpl; lia | exact E | lia].
Defined.

(** X8: a successful ReadBool returns the bit of the buffer at the
    cursor. *)
Theorem ReadBool_value (r r' : Reader) (b : bool) :
  bytes_ok (r_data r) -> 0 <= bitsRead r < 2 ^ 64 ->
  ReadBool r = (r', b, None) ->
  b = bit (r_data r) (bitsRead r) /\
  r' = {| r_data := r_data r; bitsRead := uint (bitsRead r + 1) |}.
Proof.
  intros Hok Hc Hr. unfold ReadBool in Hr.
  destruct (read_spec U8 r 1 Hc ltac:(simpl; lia)) as [Hfail Hsucc].
  destruct (Z_le_gt_dec (bitsRead r + 1) (8 * byte_len (r_data r)))
    as [Hlong | Hshort].
  - destruct (Hsucc Hlong) as (z & E & Hz & Hbits).
    rewrite E in Hr. injection Hr as <- <-. split; [| reflexivity].
    pose proof (Hbits Hok 0 ltac:(lia)) as H0.
    rewrite Z.add_0_r in H0. cbn [Z.ltb Z.compare andb] in H0.
    rewrite <- H0.
    assert (Hz' : z = 0 \/ z = 1) by (simpl in Hz; lia).
    destruct Hz' as [-> | ->]; reflexivity.
  - rewrite Hfail in Hr by lia. discriminate.
Qed.

Lemma ReadBool_value_witness :
  let r := {| r_data := [4]; bitsRead := 2 |} in
  ReadBool r = ({| r_data := [4]; bitsRead := 3 |}, true, None) /\
  true = bit [4] 2.
Proof.
  intros r.
  assert (E : ReadBool r = ({| r_data := [4]; bitsRead := 3 |}, true, None))
    by (vm_compute; reflexivity).
  split; [exact E |].
  apply (ReadBool_value r {| r_data := [4]; bitsRead := 3 |} true);
    [repeat constructor; lia | simpl; lia | exact E].
Defined.

Lemma ReadT_width (T1 T2 : width) (r : Reader) (n : Z) :
  bytes_ok (r_data r) -> 0 <= bitsRead r < 2 ^ 64 ->
  0 <= n <= bits T1 -> n <= bits T2 ->
  ReadT T1 r n = ReadT T2 r n.
Proof.
  intros Hok Hc H1 H2.
  destruct (ReadT_spec T1 r n Hc H1)
    as [(Hs1 & Hnz1 & E1) | (z1 & E1 & Hl1 & _ & Hb1)];
  destruct (ReadT_spec T2 r n Hc ltac:(lia))
    as [(Hs2 & Hnz2 & E2) | (z2 & E2 & Hl2 & _ & Hb2)];
  rewrite E1, E2; try reflexivity; try lia.
  do 2 f_equal. apply Z.bits_inj'. intros i Hi.
  rewrite (Hb1 Hok i Hi), (Hb2 Hok i Hi). reflexivity.
Qed.

(** X9: the container of a read does not change its result: for a bit
    count within both widths, the reads of two containers fail alike or
    return the same value and move the cursor alike. *)
Theorem read_width_agnostic (T1 T2 : width) (r : Reader) (n : Z) :
  bytes_ok (r_data r) -> 0 <= bitsRead r < 2 ^ 64 ->
  0 <= n <= bits T1 -> n <= bits T2 ->
  ReadT T1 r n = ReadT T2 r n.
Proof. exact (ReadT_width T1 T2 r n). Qed.

Lemma read_width_agnostic_witness :
  Read16 {| r_data := [221; 120; 21]; bitsRead := 0 |} 5
  = Read8 {| r_data := [221; 120; 21]; bitsRead := 0 |} 5.
Proof.
  apply (read_width_agnostic U16 U8
           {| r_data := [221; 120; 21]; bitsRead := 0 |} 5);
    [repeat constructor; lia | simpl; lia | simpl; lia | simpl; lia].
Defined.

(** X10: reads compose as bits do: where n1 + n2 bits are left, a read of
    n1 bits and then one of n2 bits succeed, end at the cursor of a single
    read of n1 + n2 bits, and return the low n1 bits and the bits above
    them of its value. *)
Theorem read_chunking (T T1 T2 : width) (r : Reader) (n1 n2 : Z) :
  bytes_ok (r_data r) -> reader_ok r ->
  1 <= n1 <= bits T1 -> 1 <= n2 <= bits T2 -> n1 + n2 <= bits T ->
  bitsRead r + n1 + n2 <= 8 * byte_len (r_data r) ->
  exists v r1 r2,
    ReadT T r (n1 + n2) = (r2, v, None) /\
    ReadT T1 r n1 = (r1, v mod 2 ^ n1, None) /\
    ReadT T2 r1 n2 = (r2, Z.shiftr v n1, None).
Proof.
  intros Hok [Hc Hbuf] H1 H2 Hn Hlong.
  destruct (ReadT_spec T r (n1 + n2) Hc ltac:(lia))
    as [(Hs & _) | (v & E & _ & _ & Hb)]; [lia |].
  destruct (ReadT_spec T1 r n1 Hc ltac:(lia))
    as [(Hs & _) | (v1 & E1 & _ & _ & Hb1)]; [lia |].
  set (r1 := {| r_data := r_data r; bitsRead := uint (bitsRead r + n1) |}) in *.
  assert (Hc1 : bitsRead r1 = bitsRead r + n1)
    by (cbn; apply uint_small; lia).
  destruct (ReadT_spec T2 r1 n2 ltac:(rewrite Hc1; lia) ltac:(lia))
    as [(Hs & _) | (v2 & E2 & _ & _ & Hb2)];
    [rewrite Hc1 in Hs; cbn in Hs; lia |].
  rewrite Hc1 in E2, Hb2. cbn [r1 r_data] in E2, Hb2.
  replace (bitsRead r + n1 + n2) with (bitsRead r + (n1 + n2)) in E2 by lia.
  exists v, r1. eexists. split; [exact E |]. split.
  - rewrite E1. do 2 f_equal. apply Z.bits_inj'. intros i Hi.
    rewrite (Hb1 Hok i Hi), testbit_mod_pow2, (Hb Hok i Hi) by lia.
    destruct (Z.ltb_spec i n1); destruct (Z.ltb_spec i (n1 + n2));
      try reflexivity; lia.
  - rewrite E2. do 2 f_equal. apply Z.bits_inj'. intros i Hi.
    rewrite (Hb2 Hok i Hi), Z.shiftr_spec, (Hb Hok (i + n1)) by lia.
    replace (bitsRead r + (i + n1)) with (bitsRead r + n1 + i) by lia.
    destruct (Z.ltb_spec i n2); destruct (Z.ltb_spec (i + n1) (n1 + n2));
      try reflexivity; lia.
Qed.

Lemma read_chunking_witness :
  let r := {| r_data := [221; 120; 21]; bitsRead := 9 |} in
  exists v r1 r2,
    Read16 r 12 = (r2, v, None) /\
    Read8 r 5 = (r1, v mod 2 ^ 5, None) /\
    Read8 r1 7 = (r2, Z.shiftr v 5, None).
Proof.
  intros r.
  apply (read_chunking U16 U8 U8 r 5 7);
    [repeat constructor; lia | constructor; vm_compute; split; congruence
    | simpl; lia | simpl; lia | simpl; lia | vm_compute; congruence].
Defined.

(** ** Reading part of a stream *)

Lemma writes_app (cs1 cs2 : list wcall) (w : Writer) :
  writes (cs1 ++ cs2) w
  = match writes cs1 w with
    | Some w1 => writes cs2 w1
    | None => None
    end.
Proof.
  revert w. induction cs1 as [| c cs1 IH]; intros w; [reflexivity |].
  cbn [app writes]. destruct (do_write w c); [apply IH | reflexivity].
Qed.

Lemma total_bits_app (cs1 cs2 : list wcall) :
  total_bits (cs1 ++ cs2) = total_bits cs1 + total_bits cs2.
Proof.
  induction cs1 as [| c cs1 IH]; [reflexivity |].
  cbn [app]. rewrite !total_bits_cons, IH. lia.
Qed.

(** X11: the fields of a stream can be stepped over: after writes cs1
    (bit counts up to 127, any values) and cs2 (counts within the widths,
    masked values), a Reader that Skips the bits of cs1 and then reads the
    calls of cs2 back gets exactly the values of cs2. *)
Theorem skip_then_read (cs1 cs2 : list wcall) :
  Forall (fun c => 0 <= wcall_bits c <= 127) cs1 ->
  Forall wcall_masked cs2 ->
  total_bits (cs1 ++ cs2) < 2 ^ 64 ->
  exists w,
    writes (cs1 ++ cs2) NewWriter = Some w /\
    (reads (map read_back cs2)
       (Skip (NewReader (Writer_BitData w)) (total_bits cs1))).2
    = map (fun c => (wcall_val c, None)) cs2.
Proof.
  intros H1 H2 Hfit. rewrite total_bits_app in Hfit.
  pose proof (total_bits_nonneg cs2 H2) as Hpos2.
  assert (Hpos1 : 0 <= total_bits cs1).
  { clear -H1. induction H1; [reflexivity |]. rewrite total_bits_cons. lia. }
  destruct (writes_spec cs1 NewWriter NewWriter_inv H1 ltac:(simpl; lia))
    as (w1 & Hw1 & Hinv1 & Hbw1 & _).
  cbn [NewWriter bitsWritten] in Hbw1. rewrite Z.add_0_l in Hbw1.
  destruct (writes_spec cs2 w1 Hinv1 (masked_within_127 cs2 H2) ltac:(lia))
    as (w & Hw & Hinv & Hbw & _).
  exists w. rewrite writes_app, Hw1. split; [exact Hw |].
  unfold Skip, NewReader, Writer_BitData. cbn [r_data bitsRead].
  rewrite Z.add_0_l, uint_small, <- Hbw1 by lia.
  rewrite (round_trip_from cs2 w1 w (w_data w) Hinv1 H2 ltac:(lia) Hw
             (inv_bytes w Hinv)); [reflexivity | | reflexivity].
  rewrite (inv_len w Hinv). unfold ceil8. dlia.
Qed.

Lemma skip_then_read_witness :
  let cs1 := [CallWrite U8 29 5; CallWrite U8 6 4] in
  let cs2 := [CallWrite U16 2748 12; CallWriteBool true] in
  exists w,
    writes (cs1 ++ cs2) NewWriter = Some w /\
    (reads [CallRead U16 12; CallReadBool]
       (Skip (NewReader (Writer_BitData w)) 9)).2
    = [(VInt 2748, None); (VBool true, None)].
Proof.
  intros cs1 cs2.
  apply (skip_then_read cs1 cs2).
  - repeat constructor; simpl; lia.
  - repeat constructor; vm_compute; congruence.
  - vm_compute. reflexivity.
Defined.

(** ** The sticky reader and the Reader *)

Lemma calls_map_OpCall (cs : list rcall) : calls (map OpCall cs) = cs.
Proof.
  induction cs as [| c cs IH]; [reflexivity |].
  cbn. unfold calls in IH. rewrite IH. reflexivity.
Qed.

Lemma reads_cons (c : rcall) (cs : list rcall) (r : Reader) :
  reads (c :: cs) r
  = ((reads cs (do_read r c).1.1).1,
     ((do_read r c).1.2, (do_read r c).2) :: (reads cs (do_read r c).1.1).2).
Proof.
  cbn [reads]. destruct (do_read r c) as [[r' v] e].
  cbn [fst snd]. destruct (reads cs r'). reflexivity.
Qed.

Lemma sticky_trace (cs : list rcall) (rd : Reader) :
  (sticky_steps (map OpCall cs) {| reader := rd; err := None |}).2
  = sticky_values cs (reads cs rd).2 /\
  err (sticky_steps (map OpCall cs) {| reader := rd; err := None |}).1
  = first_error (reads cs rd).2.
Proof.
  revert rd. induction cs as [| c cs IH]; intros rd; [split; reflexivity |].
  rewrite reads_cons. cbn [map sticky_steps sticky_step snd].
  rewrite sticky_read_delegates by reflexivity. cbn [reader].
  destruct (do_read rd c) as [[rd' v] [e |]] eqn:E; cbn [fst snd].
  - destruct (do_read_failure _ _ _ _ _ E) as [-> ->].
    rewrite (sticky_steps_errored _ _ e) by reflexivity.
    rewrite calls_map_OpCall. split; reflexivity.
  - destruct (IH rd') as [IHv IHe].
    destruct (sticky_steps (map OpCall cs) {| reader := rd'; err := None |})
      as [r'' out].
    cbn [fst snd app] in *. rewrite IHv, IHe. split; reflexivity.
Qed.

(** X12: a ReaderError is a Reader with the first error latched: over the
    same buffer and for the same reads, it returns the values of the
    Reader up to the first read that fails and zero values from that read
    on, and its Error() is the first error the Reader returned, or none. *)
Theorem sticky_matches_reader (cs : list rcall) (data : BitData) :
  let out := (reads cs (NewReader data)).2 in
  let res := sticky_steps (map OpCall cs) (NewReaderError data) in
  res.2 = sticky_values cs out /\
  ReaderError_Error res.1 = first_error out /\
  (Forall (fun x => x.2 = None) out ->
   res.2 = map fst out /\ ReaderError_Error res.1 = None).
Proof.
  intros out res.
  destruct (sticky_trace cs (NewReader data)) as [Hv He].
  fold out in Hv, He. change (res.2 = sticky_values cs out) in Hv.
  change (ReaderError_Error res.1 = first_error out) in He.
  split; [exact Hv |]. split; [exact He |].
  intros Hall. rewrite Hv, He. clear Hv He res.
  assert (Hlen : length out = length cs).
  { unfold out. generalize (NewReader data). clear.
    induction cs as [| c cs IH]; intros r; [reflexivity |].
    rewrite reads_cons. cbn [snd length]. rewrite IH. reflexivity. }
  clearbody out. revert cs Hlen.
  induction Hall as [| [v e] out He Hall IH]; intros cs Hlen.
  - destruct cs; [split; reflexivity | discriminate].
  - destruct cs as [| c cs]; [discriminate |].
    cbn in He. subst e. cbn [sticky_values first_error map fst].
    destruct (IH cs ltac:(simpl in Hlen; lia)) as [-> ->].
    split; reflexivity.
Qed.

Lemma sticky_matches_reader_witness :
  let cs := [CallRead U8 5; CallRead U16 9; CallRead U8 10; CallRead U8 3] in
  (reads cs (NewReader [221])).2
  = [(VInt 29, None); (VInt 0, Some ErrUnexpectedEOF);
     (VInt 0, Some ErrBitCountTooBig); (VInt 6, None)] /\
  (sticky_steps (map OpCall cs) (NewReaderError [221])).2
  = [VInt 29; VInt 0; VInt 0; VInt 0] /\
  ReaderError_Error (sticky_steps (map OpCall cs) (NewReaderError [221])).1
  = Some ErrUnexpectedEOF.
Proof.
  intros cs.
  destruct (sticky_matches_reader cs [221]) as (Hv & He & _).
  split; [vm_compute; reflexivity |].
  split; [exact Hv | exact He].
Defined.

Lemma all_ok_trace (cs : list wcall) :
  sticky_values (map read_back cs) (map (fun c => (wcall_val c, None)) cs)
  = map wcall_val cs /\
  first_error (map (fun c => (wcall_val c, @None error)) cs) = None.
Proof.
  induction cs as [| c cs [IHv IHe]]; [split; reflexivity |].
  cbn [map sticky_values first_error]. rewrite IHv, IHe. split; reflexivity.
Qed.

(** X13: the round trip through a ReaderError: the values written with bit
    counts within the widths, masked, come back from the mirrored reads of
    a ReaderError over the bytes produced, and Error() is none at the
    end. *)
Theorem sticky_round_trip (cs : list wcall) :
  Forall wcall_masked cs -> total_bits cs < 2 ^ 64 ->
  exists w,
    writes cs NewWriter = Some w /\
    let res := sticky_steps (map OpCall (map read_back cs))
                 (NewReaderError (Writer_BitData w)) in
    res.2 = map wcall_val cs /\ ReaderError_Error res.1 = None.
Proof.
  intros Hcs Hfit.
  destruct (writes_spec cs NewWriter NewWriter_inv
              (masked_within_127 cs Hcs) Hfit)
    as (w & Hw & Hinv & Hbw & _).
  exists w. split; [exact Hw |].
  destruct (sticky_trace (map read_back cs) (NewReader (Writer_BitData w)))
    as [Hv He].
  assert (Hr : (reads (map read_back cs) (NewReader (Writer_BitData w))).2
               = map (fun c => (wcall_val c, None)) cs).
  { unfold NewReader, Writer_BitData.
    change 0 with (bitsWritten NewWriter) at 1.
    rewrite (round_trip_from cs NewWriter w (w_data w) NewWriter_inv Hcs Hfit
               Hw (inv_bytes w Hinv)); [reflexivity | | reflexivity].
    rewrite (inv_len w Hinv). unfold ceil8. dlia. }
  rewrite Hr in Hv, He. destruct (all_ok_trace cs) as [Av Ae].
  rewrite Av in Hv. rewrite Ae in He.
  split; [exact Hv | exact He].
Qed.

Lemma sticky_round_trip_witness :
  let cs := [CallWrite U8 29 5; CallWrite U8 6 4; CallWrite U16 2025 12] in
  exists w,
    writes cs NewWriter = Some w /\
    let res := sticky_steps (map OpCall (map read_back cs))
                 (NewReaderError (Writer_BitData w)) in
    res.2 = [VInt 29; VInt 6; VInt 2025] /\ ReaderError_Error res.1 = None.
Proof.
  intros cs.
  apply (sticky_round_trip cs).
  - repeat constructor; vm_compute; congruence.
  - vm_compute. reflexivity.
Defined.

(** ** Reading with wider containers *)

Lemma reads_mirror (cs : list wcall) (rs : list rcall) :
  Forall2 mirrors cs rs -> Forall wcall_masked cs ->
  forall r, bytes_ok (r_data r) -> 0 <= bitsRead r < 2 ^ 64 ->
    reads rs r = reads (map read_back cs) r.
Proof.
  induction 1 as [| c rc cs rs Hm _ IH]; intros Hcs r Hok Hc;
    [reflexivity |].
  apply Forall_cons_1 in Hcs. destruct Hcs as [Hmask Hcs].
  cbn [map]. rewrite !reads_cons.
  assert (E : do_read r rc = do_read r (read_back c)).
  { destruct Hm as [b | T T' v n Hn]; [reflexivity |].
    cbn [read_back do_read]. destruct Hmask as [Hn' _].
    rewrite (ReadT_width T' T r n) by (assumption || lia). reflexivity. }
  rewrite E.
  destruct (do_read_reader r (read_back c)) as [Hd Hc'].
  rewrite IH by (try rewrite Hd; auto). reflexivity.
Qed.

(** X14: a value can be read back into any container that is wide enough:
    the round trip holds when each WriteW(v, n) is answered by a ReadW'(n)
    with n <= W', whatever W' is. *)
Theorem round_trip_any_width (cs : list wcall) (rs : list rcall) :
  Forall wcall_masked cs -> Forall2 mirrors cs rs ->
  total_bits cs < 2 ^ 64 ->
  exists w,
    writes cs NewWriter = Some w /\
    (reads rs (NewReader (Writer_BitData w))).2
    = map (fun c => (wcall_val c, None)) cs.
Proof.
  intros Hcs Hm Hfit.
  destruct (writes_spec cs NewWriter NewWriter_inv
              (masked_within_127 cs Hcs) Hfit)
    as (w & Hw & Hinv & Hbw & _).
  exists w. split; [exact Hw |].
  rewrite (reads_mirror cs rs Hm Hcs)
    by (try apply (inv_bytes w Hinv); simpl; lia).
  unfold NewReader, Writer_BitData.
  change 0 with (bitsWritten NewWriter) at 1.
  rewrite (round_trip_from cs NewWriter w (w_data w) NewWriter_inv Hcs Hfit Hw
             (inv_bytes w Hinv)); [reflexivity | | reflexivity].
  rewrite (inv_len w Hinv). unfold ceil8. dlia.
Qed.

Lemma round_trip_any_width_witness :
  let cs := [CallWrite U8 29 5; CallWrite U8 6 4; CallWrite U16 2025 12] in
  let rs := [CallRead U16 5; CallRead U8 4; CallRead U32 12] in
  exists w,
    writes cs NewWriter = Some w /\
    (reads rs (NewReader (Writer_BitData w))).2
    = [(VInt 29, None); (VInt 6, None); (VInt 2025, None)].
Proof.
  intros cs rs.
  apply (round_trip_any_width cs rs).
  - repeat constructor; vm_compute; congruence.
  - repeat constructor; simpl; lia.
  - vm_compute. reflexivity.
Defined.
